(** * The shadowsocks logger: format engine, level entry points, registry

    A shallow embedding of [ss_logger.h] (the logger header of the
    repository) and of [OPERATOR_FAILURE] from [ss_types.h].

    - The heterogeneous [std::tuple<Args...>] is a [list Arg] over a closed
      variant of argument kinds.
    - [std::stringstream] is a character buffer together with its
      [fmtflags]; [operator<<] on integers follows the C++ rule that only
      [flags & basefield] selects the base, with the prefix, the sign and
      the capitals that [showbase], [showpos] and [uppercase] ask for.
    - A [Format] is the text of a C string before its terminating NUL;
      [fmt[k]] is defined up to and including the terminator and is a fault
      beyond it.
    - Loops carry fuel; [OutOfFuel] is a fault of its own and is shown never
      to occur with the fuel [format] supplies.

    The second part of the file adds [ss_core.cc] (the program header and
    the last-error helpers, on streams attached to a device) and the
    selector macros of [ss_types.h]. *)

From Stdlib Require Import ZArith NArith List String Ascii Lia.
From Stdlib Require Import DecimalString HexadecimalString.
From Stdlib Require Import DecimalZ.
From stdpp Require Import gmap strings.
Import ListNotations.

Open Scope Z_scope.
Open Scope nat_scope.

(** ** Outcomes of fallible code *)

Inductive fault : Type :=
| AssertFailed   (* [assert(false)] in [VisitImpl<0>::visit] *)
| ReadPastEnd    (* a read of [fmt[k]] beyond the terminating NUL *)
| OutOfFuel.     (* the model's loop bound was hit *)

Inductive outcome (A : Type) : Type :=
| Done (a : A)
| Fault (f : fault).
Arguments Done {A} a.
Arguments Fault {A} f.

Definition obind {A B : Type} (m : outcome A) (k : A -> outcome B) : outcome B :=
  match m with
  | Done a => k a
  | Fault f => Fault f
  end.

Notation "'let!' x ':=' m 'in' k" := (obind m (fun x => k))
  (at level 10, x name, m at level 100, k at level 200).

(** ** Severity model: [enum class LoggerLevel : uint8_t] *)

Inductive LoggerLevel : Type :=
| LL_VERBOSE | LL_DEBUG | LL_INFO | LL_WARNING | LL_ERROR | LL_EMERGENCY.

Definition level_value (l : LoggerLevel) : Z :=
  match l with
  | LL_VERBOSE => 0x00
  | LL_DEBUG => 0x10
  | LL_INFO => 0x20
  | LL_WARNING => 0x40
  | LL_ERROR => 0x80
  | LL_EMERGENCY => 0xff
  end%Z.

(** [level == LoggerLevel::LL_EMERGENCY] compares the underlying values. *)
Definition level_eqb (a b : LoggerLevel) : bool :=
  (level_value a =? level_value b)%Z.

(** [#define OPERATOR_FAILURE (-1)] *)
Definition OPERATOR_FAILURE : Z := (-1)%Z.

(** ** The output stream *)

Definition fmtflags : Type := Z.

(** The [std::ios_base] bit values of libstdc++. *)
Definition ios_dec : fmtflags := 2%Z.
Definition ios_hex : fmtflags := 8%Z.
Definition ios_oct : fmtflags := 64%Z.
Definition ios_skipws : fmtflags := 4096%Z.
Definition ios_basefield : fmtflags := Z.lor ios_dec (Z.lor ios_oct ios_hex).

Record ostream : Type := mk_ostream {
  buf : list ascii;
  flags : fmtflags
}.

(** A freshly constructed [std::stringstream] : empty, [skipws | dec]. *)
Definition stringstream : ostream :=
  {| buf := []; flags := Z.lor ios_skipws ios_dec |}.

(** [os.setf(f)] : the bits of [f] are added, none is removed. *)
Definition setf (os : ostream) (f : fmtflags) : ostream :=
  {| buf := buf os; flags := Z.lor (flags os) f |}.

Definition write (os : ostream) (cs : list ascii) : ostream :=
  {| buf := buf os ++ cs; flags := flags os |}.

(** The argument kinds a call site passes. [AInt] is a C++ [int]. *)
Inductive Arg : Type :=
| AInt (z : Z)
| AStr (s : string)
| AChar (c : ascii).

Fixpoint oct_digits (fuel : nat) (n : N) (acc : list ascii) : list ascii :=
  match fuel with
  | O => acc
  | S fuel' =>
      let d := ascii_of_N (48 + N.modulo n 8) in
      if (n <? 8)%N then d :: acc else oct_digits fuel' (N.div n 8) (d :: acc)
  end.

(** [showbase], [showpos] and [uppercase] of libstdc++: bits 9, 11 and
    14. *)
Definition ios_showbase : fmtflags := 512%Z.
Definition ios_showpos : fmtflags := 2048%Z.
Definition ios_uppercase : fmtflags := 16384%Z.

Definition upper (c : ascii) : ascii :=
  let n := nat_of_ascii c in
  if (97 <=? n) && (n <=? 122) then ascii_of_nat (n - 32) else c.

(** Integer output of [std::num_put], at width 0 and in the "C" locale:
    octal when [basefield] is exactly [oct], hexadecimal when it is exactly
    [hex], decimal in every other case. In octal and hexadecimal an [int]
    is printed as its 32-bit unsigned value, after [0] or [0x] when
    [showbase] is set and the value is not zero, with capital letters
    under [uppercase]; in decimal a value that is not negative has a [+]
    under [showpos]. *)
Definition show_int (f : fmtflags) (z : Z) : list ascii :=
  let base := Z.land f ios_basefield in
  let u := Z.to_N (z mod 2 ^ 32)%Z in
  if (base =? ios_hex)%Z then
    (if Z.testbit f 9 && negb (u =? 0)%N
     then (if Z.testbit f 14 then list_ascii_of_string "0X"
           else list_ascii_of_string "0x")
     else []) ++
    (if Z.testbit f 14
     then map upper (list_ascii_of_string
            (HexadecimalString.NilZero.string_of_uint (N.to_hex_uint u)))
     else list_ascii_of_string
            (HexadecimalString.NilZero.string_of_uint (N.to_hex_uint u)))
  else if (base =? ios_oct)%Z then
    (if Z.testbit f 9 && negb (u =? 0)%N then ["0"%char] else []) ++
    oct_digits 11 u []
  else
    (if Z.testbit f 11 && (0 <=? z)%Z then ["+"%char] else []) ++
    list_ascii_of_string (DecimalString.NilZero.string_of_int (Z.to_int z)).

Definition show (f : fmtflags) (v : Arg) : list ascii :=
  match v with
  | AInt z => show_int f z
  | AStr s => list_ascii_of_string s
  | AChar c => [c]
  end.

(** [os << value] *)
Definition put (os : ostream) (v : Arg) : ostream :=
  write os (show (flags os) v).

(** ** [class TupleElementPrinter]

    [_output] is a reference: the record carries the one stream that the
    printer and [format]'s [ss] share. *)

Record TupleElementPrinter : Type := mk_printer {
  _output : ostream;
  _defaultFlags : fmtflags
}.

(** Modelled from the spec: the constructor [TupleElementPrinter(out)],
    declared in the header, defined in the logger's implementation file.
    It binds the stream; no flag is pending at first. *)
Definition new_printer (out : ostream) : TupleElementPrinter :=
  {| _output := out; _defaultFlags := 0%Z |}.

(** Modelled from the spec: [TupleElementPrinter::setFlag], declared in the
    header, defined in the logger's implementation file. The header gives
    its signature only. This body keeps the flag in the printer, for the
    next [operator()] to apply; with it [format] gives the text of the
    specification's end-to-end example. The base in which the argument of
    a [%x] is rendered depends on the body, and is settled on [format_with]
    with [setFlag_saving]. *)
Definition setFlag (p : TupleElementPrinter) (f : fmtflags) : TupleElementPrinter :=
  {| _output := _output p; _defaultFlags := f |}.

(** [TupleElementPrinter::operator()(value)] : the value is written first,
    then a non-zero [_defaultFlags] is [setf]-ed on the stream and zeroed. *)
Definition call (p : TupleElementPrinter) (value : Arg) : TupleElementPrinter :=
  let out := put (_output p) value in
  if (_defaultFlags p =? 0)%Z then
    {| _output := out; _defaultFlags := _defaultFlags p |}
  else
    {| _output := setf out (_defaultFlags p); _defaultFlags := 0%Z |}.

(** ** Runtime-indexed tuple access

    [VisitImpl<I>::visit(tuple, idx, func)]. [func] is taken by value: the
    result is the callee's copy after the call. [std::get<I - 1>] is in
    range for every [I] the chain instantiates. *)

Fixpoint VisitImpl (I : nat) (tuple : list Arg) (idx : nat)
    (func : TupleElementPrinter) : outcome TupleElementPrinter :=
  match I with
  | O => Fault AssertFailed
  | S I' =>
      if idx =? I' then
        match tuple !! I' with
        | Some v => Done (call func v)
        | None => Fault AssertFailed
        end
      else VisitImpl I' tuple idx func
  end.

Definition visit (tuple : list Arg) (idx : nat) (func : TupleElementPrinter)
    : outcome TupleElementPrinter :=
  VisitImpl (length tuple) tuple idx func.

(** ** [SsLogger::format] *)

Definition Format : Type := string.

Definition chars (fmt : Format) : list ascii := list_ascii_of_string fmt.

Definition strlen (fmt : Format) : nat := length (chars fmt).

Definition NUL : ascii := Ascii.zero.
Definition percent : ascii := "%"%char.

(** [fmt[k]] *)
Definition char_at (fmt : Format) (k : nat) : outcome ascii :=
  match chars fmt !! k with
  | Some c => Done c
  | None => if k =? strlen fmt then Done NUL else Fault ReadPastEnd
  end.

(** [isalnum] in the "C" locale. *)
Definition isalnum (c : ascii) : bool :=
  let n := nat_of_ascii c in
  ((48 <=? n) && (n <=? 57)) || ((65 <=? n) && (n <=? 90))
  || ((97 <=? n) && (n <=? 122)).

(** [while (isalnum(fmt[++i])) ;] : the value of [i] when the loop ends. *)
Fixpoint skip_alnum (fuel : nat) (fmt : Format) (i : nat) : outcome nat :=
  let! c := char_at fmt (S i) in
  if isalnum c then
    match fuel with
    | O => Fault OutOfFuel
    | S fuel' => skip_alnum fuel' fmt (S i)
    end
  else Done (S i).

(** The variables [format] mutates: [printer] (whose [_output] is [ss]),
    [index] and the loop counter [i]. *)
Record FormatState : Type := mk_state {
  printer : TupleElementPrinter;
  index : nat;
  pos : nat   (* [i] *)
}.

Definition ss (st : FormatState) : ostream := _output (printer st).

Definition ss_write (st : FormatState) (cs : list ascii) : FormatState :=
  {| printer := {| _output := write (ss st) cs;
                   _defaultFlags := _defaultFlags (printer st) |};
     index := index st;
     pos := pos st |}.

Definition set_pos (st : FormatState) (k : nat) : FormatState :=
  {| printer := printer st; index := index st; pos := k |}.

(** The lambda [output], called with [i] by reference. [visit] receives a
    copy of [printer]: what the copy wrote stays in the shared stream, the
    copy's own [_defaultFlags] is dropped with it. *)
Definition output (fmt : Format) (tuple : list Arg) (st : FormatState)
    : outcome FormatState :=
  if index st <? length tuple then
    let! copy := visit tuple (index st) (printer st) in
    let! j := skip_alnum (strlen fmt) fmt (pos st) in
    Done {| printer := {| _output := _output copy;
                          _defaultFlags := _defaultFlags (printer st) |};
            index := S (index st);
            pos := j - 1 |}
  else
    Done {| printer := call (printer st) (AChar percent);
            index := index st;
            pos := pos st |}.

(** [case 'x': { ss << "0x"; printer.setFlag(std::ios::hex); }], which
    falls through to [default]. *)
Definition case_x (st : FormatState) : FormatState :=
  let st0 := ss_write st (list_ascii_of_string "0x") in
  {| printer := setFlag (printer st0) ios_hex;
     index := index st0; pos := pos st0 |}.

(** What [case 'x'] adds in front of a substitution. *)
Definition hex_prefix (c1 : ascii) : list ascii :=
  if Ascii.eqb c1 "x"%char then list_ascii_of_string "0x" else [].

(** One iteration of the [for] loop, its [++i] included. *)
Definition step (fmt : Format) (tuple : list Arg) (st : FormatState)
    : outcome FormatState :=
  let! c := char_at fmt (pos st) in
  if negb (Ascii.eqb c percent) then
    Done (set_pos (ss_write st [c]) (S (pos st)))
  else
    let! c1 := char_at fmt (S (pos st)) in
    if Ascii.eqb c1 percent then
      Done (set_pos (ss_write st [c]) (S (S (pos st))))
    else
      let st1 := if Ascii.eqb c1 "x"%char then case_x st else st in
      let! st2 := output fmt tuple (set_pos st1 (S (pos st1))) in
      Done (set_pos st2 (S (pos st2))).

(** [for (size_t i = 0; i < strlen(fmt); ++i) ...] *)
Fixpoint run (fmt : Format) (tuple : list Arg) (fuel : nat) (st : FormatState)
    : outcome FormatState :=
  if pos st <? strlen fmt then
    match fuel with
    | O => Fault OutOfFuel
    | S fuel' =>
        match step fmt tuple st with
        | Done st' => run fmt tuple fuel' st'
        | Fault f => Fault f
        end
    end
  else Done st.

Definition init : FormatState :=
  {| printer := new_printer stringstream; index := 0; pos := 0 |}.

(** [ss.str()] *)
Definition str (os : ostream) : string := string_of_list_ascii (buf os).

Definition format (fmt : Format) (tuple : list Arg) : outcome string :=
  let! st := run fmt tuple (strlen fmt) init in
  Done (str (ss st)).

(** The value of [index] when [format] returns: how many arguments the
    call consumed. *)
Definition consumed (fmt : Format) (tuple : list Arg) : outcome nat :=
  let! st := run fmt tuple (strlen fmt) init in
  Done (index st).

(** ** The loop over the bodies the header does not show

    [format] again, with [TupleElementPrinter::setFlag] and the constructor
    as arguments; [format] is [format_with setFlag new_printer]. *)

Section AbsentBodies.
Variable set_flag : TupleElementPrinter -> fmtflags -> TupleElementPrinter.
Variable constructor : ostream -> TupleElementPrinter.

Definition case_x_with (st : FormatState) : FormatState :=
  let st0 := ss_write st (list_ascii_of_string "0x") in
  {| printer := set_flag (printer st0) ios_hex;
     index := index st0; pos := pos st0 |}.

Definition step_with (fmt : Format) (tuple : list Arg) (st : FormatState)
    : outcome FormatState :=
  let! c := char_at fmt (pos st) in
  if negb (Ascii.eqb c percent) then
    Done (set_pos (ss_write st [c]) (S (pos st)))
  else
    let! c1 := char_at fmt (S (pos st)) in
    if Ascii.eqb c1 percent then
      Done (set_pos (ss_write st [c]) (S (S (pos st))))
    else
      let st1 := if Ascii.eqb c1 "x"%char then case_x_with st else st in
      let! st2 := output fmt tuple (set_pos st1 (S (pos st1))) in
      Done (set_pos st2 (S (pos st2))).

Fixpoint run_with (fmt : Format) (tuple : list Arg) (fuel : nat)
    (st : FormatState) : outcome FormatState :=
  if pos st <? strlen fmt then
    match fuel with
    | O => Fault OutOfFuel
    | S fuel' =>
        match step_with fmt tuple st with
        | Done st' => run_with fmt tuple fuel' st'
        | Fault f => Fault f
        end
    end
  else Done st.

Definition init_with : FormatState :=
  {| printer := constructor stringstream; index := 0; pos := 0 |}.

Definition format_with (fmt : Format) (tuple : list Arg) : outcome string :=
  let! st := run_with fmt tuple (strlen fmt) init_with in
  Done (str (ss st)).

End AbsentBodies.





(** The number of substitution points of a format string, in the words of
    the specification: scanning from the left, [%%] is an escape and "any
    other occurrence of [%] begins a substitution"; the character after
    such a [%] belongs to it. *)
Fixpoint count_substitutions (cs : list ascii) : nat :=
  match cs with
  | [] => 0
  | c :: rest =>
      if Ascii.eqb c percent then
        match rest with
        | [] => 1
        | c1 :: rest' =>
            if Ascii.eqb c1 percent then count_substitutions rest'
            else S (count_substitutions rest')
        end
      else count_substitutions rest
  end.

Definition substitution_points (fmt : Format) : nat :=
  count_substitutions (chars fmt).

(** The substitution points at or after position [k]. *)
Definition points_from (fmt : Format) (k : nat) : nat :=
  count_substitutions (drop k (chars fmt)).

(** ** The logging entry points

    [static void log(LoggerLevel, std::string)], the private overload every
    entry point hands its text to, is declared in the header and defined in
    the logger's implementation file. It is a parameter here: any function
    from the level, the message and the state of the process (streams,
    registry, clock) to the state after it returns. *)

(** What a call hands back to its caller: nothing ([void]) or a
    [std::string]. *)
Inductive returned : Type :=
| RVoid
| RString (s : string).

(** How a call ends: it returns to its caller, [std::exit] ends the
    process with a status, or [format] faulted. *)
Inductive process (World : Type) : Type :=
| Returned (r : returned) (w : World)
| Exited (status : Z) (w : World)
| Crashed (f : fault).
Arguments Returned {World} r w.
Arguments Exited {World} status w.
Arguments Crashed {World} f.

Section EntryPoints.
Context {World : Type}.
Variable log_message : LoggerLevel -> string -> World -> World.

(** The common shape [log(LEVEL, format(fmt, args...));] of the five
    entry points that return. *)
Definition log_formatted (level : LoggerLevel) (fmt : Format)
    (args : list Arg) (w : World) : process World :=
  match format fmt args with
  | Done message => Returned RVoid (log_message level message w)
  | Fault f => Crashed f
  end.

Definition verbose := log_formatted LL_VERBOSE.
Definition debug := log_formatted LL_DEBUG.
Definition info := log_formatted LL_INFO.
Definition warning := log_formatted LL_WARNING.
Definition error := log_formatted LL_ERROR.

(** [log(LL_EMERGENCY, format(fmt, args...)); std::exit(OPERATOR_FAILURE);] *)
Definition emergency (fmt : Format) (args : list Arg) (w : World)
    : process World :=
  match format fmt args with
  | Done message =>
      Exited OPERATOR_FAILURE (log_message LL_EMERGENCY message w)
  | Fault f => Crashed f
  end.

(** The public template [log(level, fmt, args...)], the one entry point
    declared to return [std::string]. *)
Definition log (level : LoggerLevel) (fmt : Format) (args : list Arg)
    (w : World) : process World :=
  match format fmt args with
  | Done message =>
      let w' := log_message level message w in
      if level_eqb level LL_EMERGENCY then Exited OPERATOR_FAILURE w'
      else Returned (RString message) w'
  | Fault f => Crashed f
  end.
End EntryPoints.

(** ** The logger registry

    [static std::map<LoggerName, SsLoggerPtr> _loggers]. [LoggerName] is
    [const char *] and the map compares its keys as the key type does; the
    model is generic in the key type (any countable type with decidable
    equality), and a name is what the map takes as its key. A [SsLoggerPtr]
    is a handle to a shared instance. *)

Section Registry.
Context `{Countable LoggerName} {SsLoggerPtr : Type}.

(** Modelled from the spec: [SsLogger::addLogger], declared in the header,
    defined in the logger's implementation file. It "inserts or replaces
    the entry for [name]". *)
Definition addLogger (name : LoggerName) (logger : SsLoggerPtr)
    (_loggers : gmap LoggerName SsLoggerPtr) : gmap LoggerName SsLoggerPtr :=
  <[name := logger]> _loggers.

(** Modelled from the spec: [SsLogger::removeLogger], declared in the
    header, defined in the logger's implementation file. It "removes the
    entry, returning whether an entry existed". *)
Definition removeLogger (name : LoggerName)
    (_loggers : gmap LoggerName SsLoggerPtr)
    : bool * gmap LoggerName SsLoggerPtr :=
  (bool_decide (is_Some (_loggers !! name)), delete name _loggers).
End Registry.

(** ** The scan, step by step *)

(** The four ways an iteration can go, and the one way it can fault. *)
Inductive step_kind (fmt : Format) (tuple : list Arg) (st : FormatState)
    : outcome FormatState -> Prop :=
| SK_literal c :
    chars fmt !! pos st = Some c -> c <> percent ->
    step_kind fmt tuple st (Done (set_pos (ss_write st [c]) (S (pos st))))
| SK_escape :
    chars fmt !! pos st = Some percent ->
    chars fmt !! S (pos st) = Some percent ->
    step_kind fmt tuple st
      (Done (set_pos (ss_write st [percent]) (S (S (pos st)))))
| SK_exhausted c1 st' :
    chars fmt !! pos st = Some percent ->
    char_at fmt (S (pos st)) = Done c1 -> c1 <> percent ->
    length tuple <= index st ->
    buf (ss st') = buf (ss st) ++ hex_prefix c1 ++ [percent] ->
    index st' = index st -> pos st' = S (S (pos st)) ->
    _defaultFlags (printer st') = 0%Z ->
    step_kind fmt tuple st (Done st')
| SK_consume c1 v st' :
    chars fmt !! pos st = Some percent ->
    chars fmt !! S (pos st) = Some c1 -> c1 <> percent ->
    tuple !! index st = Some v ->
    buf (ss st') = buf (ss st) ++ hex_prefix c1 ++ show (flags (ss st)) v ->
    index st' = S (index st) ->
    S (S (pos st)) <= pos st' <= S (strlen fmt) ->
    points_from fmt (pos st') = points_from fmt (S (S (pos st))) ->
    step_kind fmt tuple st (Done st')
| SK_past :
    chars fmt !! pos st = Some percent ->
    S (pos st) = strlen fmt ->
    index st < length tuple ->
    step_kind fmt tuple st (Fault ReadPastEnd).

(** The states the loop of a call [format(fmt, tuple...)] passes through. *)
Inductive reaches (fmt : Format) (tuple : list Arg) : FormatState -> Prop :=
| reaches_init : reaches fmt tuple init
| reaches_step st st' :
    reaches fmt tuple st -> pos st < strlen fmt ->
    step fmt tuple st = Done st' -> reaches fmt tuple st'.

(** ** Samples for the examples

    A private overload that keeps every message it is handed: the state of
    the process is the list of messages delivered so far. *)
Definition keep_message (level : LoggerLevel) (message : string)
    (w : list (LoggerLevel * string)) : list (LoggerLevel * string) :=
  w ++ [(level, message)].

(** A private overload that discards every message. *)
Definition drop_message (level : LoggerLevel) (message : string)
    (w : list (LoggerLevel * string)) : list (LoggerLevel * string) := w.

(** The state of [format("%d%x", 7)] after its first iteration. *)
Definition after_seven : FormatState :=
  {| printer := {| _output := {| buf := ["7"%char]; flags := 4098%Z |};
                   _defaultFlags := 0%Z |};
     index := 1; pos := 2 |}.

(** A state standing on the escape of ["1%%"], after the ["1"]. *)
Definition after_one : FormatState :=
  {| printer := {| _output := {| buf := ["1"%char]; flags := 4098%Z |};
                   _defaultFlags := 0%Z |};
     index := 0; pos := 1 |}.


(** The state of [format("<%s:%d>", ...)] after its first iteration. *)
Definition after_bracket : FormatState := set_pos (ss_write init ["<"%char]) 1.

(** ** A functional reading of [format]

    The same scan as a recursion over the characters still to read and the
    arguments still to consume. [skipping] is set after a substitution that
    consumed an argument, while the alphanumeric run behind it is dropped. *)

Definition pwrite (p : TupleElementPrinter) (cs : list ascii)
    : TupleElementPrinter :=
  {| _output := write (_output p) cs; _defaultFlags := _defaultFlags p |}.

Fixpoint render (cs : list ascii) (args : list Arg) (p : TupleElementPrinter)
    (skipping : bool) : outcome TupleElementPrinter :=
  match cs with
  | [] => Done p
  | c :: r =>
      if skipping && isalnum c then render r args p true
      else if negb (Ascii.eqb c percent) then render r args (pwrite p [c]) false
      else
        match r with
        | [] =>
            match args with
            | [] => Done (call p (AChar percent))
            | _ :: _ => Fault ReadPastEnd
            end
        | c1 :: r' =>
            if Ascii.eqb c1 percent then
              render r' args (pwrite p [percent]) false
            else
              let px :=
                if Ascii.eqb c1 "x"%char
                then setFlag (pwrite p (list_ascii_of_string "0x")) ios_hex
                else p in
              match args with
              | v :: args' =>
                  render r' args'
                    {| _output := _output (call px v);
                       _defaultFlags := _defaultFlags px |} true
              | [] => render r' [] (call px (AChar percent)) false
              end
        end
  end.

(** What a format string gives when no argument is passed: every [%] that
    is not an escape stays, after the [0x] of a [%x], and the character
    behind it is lost. *)
Fixpoint plain (cs : list ascii) : list ascii :=
  match cs with
  | [] => []
  | c :: r =>
      if negb (Ascii.eqb c percent) then c :: plain r
      else
        match r with
        | [] => [percent]
        | c1 :: r' =>
            if Ascii.eqb c1 percent then percent :: plain r'
            else hex_prefix c1 ++ percent :: plain r'
        end
  end.

(** Whether the scan ends on a [%] that begins a substitution: the last
    character is a [%] and is not the second half of an escape. *)
Fixpoint ends_in_substitution (cs : list ascii) : bool :=
  match cs with
  | [] => false
  | c :: r =>
      if Ascii.eqb c percent then
        match r with
        | [] => true
        | _ :: r' => ends_in_substitution r'
        end
      else ends_in_substitution r
  end.

(** Printing a list of values through one printer, one call after the
    other. *)
Definition call_all (p : TupleElementPrinter) (vs : list Arg)
    : TupleElementPrinter :=
  fold_left call vs p.

(** The decimal digits of an integer, as [operator<<] writes them under the
    default flags. *)
Definition decimal (z : Z) : list ascii :=
  list_ascii_of_string (DecimalString.NilZero.string_of_int (Z.to_int z)).

(** The same digits behind a [+], which [showpos] asks for when the value
    is not negative. *)
Definition signed_decimal (showpos : bool) (z : Z) : list ascii :=
  (if showpos && (0 <=? z)%Z then ["+"%char] else []) ++ decimal z.

(** ** [ss_core.cc]

    A stream attached to a device: what has reached the device, and the
    [ostream] whose buffer holds what is still pending. A real stream may
    hand part of its buffer over earlier; what is stated below is about
    [sent], which does not depend on that, and about the buffer after a
    flush. *)

Record device_stream : Type := mk_device_stream {
  device : list ascii;
  os : ostream
}.

Definition sent (s : device_stream) : list ascii := device s ++ buf (os s).

(** [std::ios_base::unitbuf] of libstdc++, bit 13. *)
Definition ios_unitbuf : fmtflags := 8192%Z.

(** [s.flush()] *)
Definition flush (s : device_stream) : device_stream :=
  {| device := device s ++ buf (os s);
     os := {| buf := []; flags := flags (os s) |} |}.

(** [s << v] on a device stream: the output, then the flush of the sentry
    when [unitbuf] is set. *)
Definition insert (s : device_stream) (v : Arg) : device_stream :=
  let s1 := {| device := device s; os := put (os s) v |} in
  if Z.testbit (flags (os s)) 13 then flush s1 else s1.

Definition newline : ascii := ascii_of_nat 10.

(** [s << std::endl] *)
Definition endl (s : device_stream) : device_stream :=
  flush (insert s (AChar newline)).

(** [SHADOWSOCKS_LICENSE_LINK] *)
Definition SHADOWSOCKS_LICENSE_LINK : string :=
  "https://raw.githubusercontent.com/JShadowMan/shadowsocks/master/LICENSE".

(** [Ss_Core::printShadowSocksHeader]. [SHADOWSOCKS_MODULE] and
    [SHADOWSOCKS_VERSION] are set by the build and default to ["UNKNOWN"];
    they are arguments here. *)
Definition printShadowSocksHeader (module version : string)
    (s : device_stream) : device_stream :=
  let s := insert s (AStr "ShadowSocks-") in
  let s := insert s (AStr module) in
  let s := insert s (AStr " ") in
  let s := insert s (AStr "Ver: ") in
  let s := insert s (AStr version) in
  let s := endl s in
  let s := insert s
    (AStr "Copyright (C) 2018 Jayson Wang <jayson@shellboot.com>") in
  let s := endl s in
  let s := insert s (AStr "MIT License: ") in
  let s := insert s (AStr ("<" ++ SHADOWSOCKS_LICENSE_LINK ++ ">")) in
  let s := endl s in
  endl s.

(** The text of the header. *)
Definition header_text (module version : string) : list ascii :=
  list_ascii_of_string "ShadowSocks-" ++ list_ascii_of_string module ++
  list_ascii_of_string " " ++ list_ascii_of_string "Ver: " ++
  list_ascii_of_string version ++ [newline] ++
  list_ascii_of_string
    "Copyright (C) 2018 Jayson Wang <jayson@shellboot.com>" ++ [newline] ++
  list_ascii_of_string "MIT License: " ++
  list_ascii_of_string ("<" ++ SHADOWSOCKS_LICENSE_LINK ++ ">") ++
  [newline] ++ [newline].

(** [Ss_Core::getLastError]: [errno] and the library's [strerror] are
    arguments. The string is built in a fresh [std::stringstream]. *)
Definition getLastError (errno : Z) (strerror : Z -> string) : string :=
  let ss0 := put stringstream (AStr "Error<") in
  let ss1 := put ss0 (AInt errno) in
  let ss2 := put ss1 (AStr ">: ") in
  let ss3 := put ss2 (AStr (strerror errno)) in
  str ss3.

(** [std::cout] and [std::cerr]. *)
Record std_streams : Type := mk_std_streams {
  cout : device_stream;
  cerr : device_stream
}.

(** The overload of [Ss_Core::printLastError] that takes a [std::string].
    [errno] is the value [getLastError] reads, after the flush. *)
Definition printLastError (errno : Z) (strerror : Z -> string)
    (additionalMessage : string) (w : std_streams) : std_streams :=
  let out := flush (cout w) in
  let e := insert (cerr w) (AStr (getLastError errno strerror)) in
  let e := insert e (AStr " <UserReason>: ") in
  let e := insert e (AStr additionalMessage) in
  {| cout := out; cerr := e |}.

(** The overload of [Ss_Core::printLastError] that takes a C string: the
    text is copied into a [std::string] and handed to the overload above. *)
Definition printLastError_cstr (errno : Z) (strerror : Z -> string)
    (additionalMessage : string) (w : std_streams) : std_streams :=
  printLastError errno strerror additionalMessage w.

(** ** The selector macros of [ss_types.h], Linux branch

    [SELECTOR_VALUE] is [pollfd]; its [events] and [revents] are [short]. *)

Record pollfd : Type := mk_pollfd {
  fd : Z;
  events : Z;
  revents : Z
}.

(** The value of an [int] stored into a [short]. *)
Definition to_short (z : Z) : Z := ((z + 32768) mod 65536 - 32768)%Z.

(** [SELECTOR_VALUE_INIT(_S)] : [{ .fd = (_S), .events = 0 }] *)
Definition SELECTOR_VALUE_INIT (s : Z) : pollfd :=
  {| fd := s; events := 0%Z; revents := 0%Z |}.

(** [SELECTOR_VALUE_ADD(_V, _E)] : [(_V).events |= (_E)] *)
Definition SELECTOR_VALUE_ADD (v : pollfd) (e : Z) : pollfd :=
  {| fd := fd v; events := to_short (Z.lor (events v) e);
     revents := revents v |}.

(** The printer with [b] put in front of what its stream holds. *)
Definition prepend (b : list ascii) (p : TupleElementPrinter)
    : TupleElementPrinter :=
  {| _output := {| buf := b ++ buf (_output p); flags := flags (_output p) |};
     _defaultFlags := _defaultFlags p |}.

(** The result of a call with [b] put in front of the text. *)
Definition with_prefix (b : string) (r : outcome string) : outcome string :=
  let! out := r in Done (b ++ out)%string.

(** ** Samples for the further examples *)

(** [std::cout] with a pending line and an unbuffered [std::cerr]. *)
Definition sample_streams : std_streams :=
  {| cout := {| device := [];
                os := {| buf := list_ascii_of_string "starting";
                         flags := 4098%Z |} |};
     cerr := {| device := [];
                os := {| buf := []; flags := 12290%Z |} |} |}.

(** A [strerror] that knows one error. *)
Definition sample_strerror (e : Z) : string :=
  if (e =? 2)%Z then "No such file or directory" else "Unknown error".

(** * Properties *)

(** ** Reading the format string *)

Lemma char_at_lookup fmt k c :
  chars fmt !! k = Some c -> char_at fmt k = Done c.
Proof. unfold char_at. intros ->. reflexivity. Qed.

Lemma char_at_end fmt : char_at fmt (strlen fmt) = Done NUL.
Proof.
  unfold char_at, strlen.
  rewrite (lookup_ge_None_2 (chars fmt) (length (chars fmt))) by lia.
  rewrite Nat.eqb_refl. reflexivity.
Qed.

Lemma char_at_past fmt k :
  strlen fmt < k -> char_at fmt k = Fault ReadPastEnd.
Proof.
  intros Hk. unfold char_at, strlen in *.
  rewrite lookup_ge_None_2 by lia.
  destruct (Nat.eqb_spec k (length (chars fmt))); [lia | reflexivity].
Qed.

Lemma char_at_Done fmt k c :
  char_at fmt k = Done c ->
  chars fmt !! k = Some c \/ (k = strlen fmt /\ c = NUL).
Proof.
  unfold char_at. destruct (chars fmt !! k) as [d|] eqn:E.
  - intros [= ->]. now left.
  - destruct (Nat.eqb_spec k (strlen fmt)); [|discriminate].
    intros [= <-]. now right.
Qed.

Lemma char_at_fault fmt k f : char_at fmt k = Fault f -> f = ReadPastEnd.
Proof.
  unfold char_at. destruct (chars fmt !! k); [discriminate|].
  destruct (k =? strlen fmt); [discriminate|]. now intros [= <-].
Qed.

Lemma char_at_total fmt k : k <= strlen fmt -> exists c, char_at fmt k = Done c.
Proof.
  intros Hk. destruct (chars fmt !! k) as [c|] eqn:E.
  - exists c. now apply char_at_lookup.
  - apply lookup_ge_None_1 in E. fold (strlen fmt) in E.
    assert (k = strlen fmt) as -> by lia.
    exists NUL. apply char_at_end.
Qed.

Lemma isalnum_NUL : isalnum NUL = false.
Proof. reflexivity. Qed.

Lemma isalnum_percent : isalnum percent = false.
Proof. reflexivity. Qed.

Lemma char_at_alnum fmt k c :
  char_at fmt k = Done c -> isalnum c = true -> k < strlen fmt.
Proof.
  intros Hc Ha. destruct (char_at_Done _ _ _ Hc) as [Hl | [_ ->]].
  - apply lookup_lt_Some in Hl. exact Hl.
  - rewrite isalnum_NUL in Ha. discriminate.
Qed.

(** The skip loop stops at the terminator at the latest; it faults exactly
    when its first read is already beyond the terminator. *)
Lemma skip_alnum_Done fmt fuel i :
  S i <= strlen fmt -> strlen fmt - S i <= fuel ->
  exists j, skip_alnum fuel fmt i = Done j /\ S i <= j <= strlen fmt.
Proof.
  revert i. induction fuel as [|fuel IH]; intros i Hi Hfuel.
  - assert (S i = strlen fmt) as E by lia.
    exists (S i). simpl. rewrite E, char_at_end.
    split; [reflexivity | lia].
  - simpl. destruct (char_at_total fmt (S i) Hi) as [c Hc]. rewrite Hc. simpl.
    destruct (isalnum c) eqn:Ha.
    + pose proof (char_at_alnum _ _ _ Hc Ha) as Hlt.
      destruct (IH (S i)) as [j [Hj Hb]]; [lia | lia |].
      exists j. split; [exact Hj | lia].
    + exists (S i). split; [reflexivity | lia].
Qed.

Lemma skip_alnum_past fmt fuel i :
  strlen fmt < S i -> skip_alnum fuel fmt i = Fault ReadPastEnd.
Proof.
  intros Hi. destruct fuel; simpl; rewrite char_at_past by lia; reflexivity.
Qed.

(** ** Counting substitution points *)

Lemma points_from_past fmt k : strlen fmt <= k -> points_from fmt k = 0.
Proof.
  intros Hk. unfold points_from. rewrite drop_ge; [reflexivity|].
  unfold strlen in Hk. lia.
Qed.

Lemma points_from_literal fmt k c :
  chars fmt !! k = Some c -> c <> percent ->
  points_from fmt k = points_from fmt (S k).
Proof.
  intros Hc Hne. unfold points_from. rewrite (drop_S _ _ _ Hc). cbn.
  destruct (Ascii.eqb_spec c percent); [contradiction | reflexivity].
Qed.

Lemma points_from_escape fmt k :
  chars fmt !! k = Some percent -> chars fmt !! S k = Some percent ->
  points_from fmt k = points_from fmt (S (S k)).
Proof.
  intros Hc Hc1. unfold points_from.
  rewrite (drop_S _ _ _ Hc), (drop_S _ _ _ Hc1). reflexivity.
Qed.

Lemma points_from_substitution fmt k :
  chars fmt !! k = Some percent -> chars fmt !! S k <> Some percent ->
  points_from fmt k = S (points_from fmt (S (S k))).
Proof.
  intros Hc Hc1. unfold points_from. rewrite (drop_S _ _ _ Hc).
  destruct (chars fmt !! S k) as [c1|] eqn:E.
  - rewrite (drop_S _ _ _ E). cbn.
    destruct (Ascii.eqb_spec c1 percent) as [->|]; [contradiction | reflexivity].
  - apply lookup_ge_None_1 in E.
    rewrite (drop_ge _ (S k)), (drop_ge _ (S (S k))) by lia. reflexivity.
Qed.

(** The characters the skip loop passes are alphanumeric, so none of them
    is a substitution point. *)
Lemma skip_alnum_points fmt fuel i j :
  skip_alnum fuel fmt i = Done j ->
  points_from fmt (S i) = points_from fmt j.
Proof.
  revert i. induction fuel as [|fuel IH]; intros i; simpl;
    destruct (char_at fmt (S i)) as [c|] eqn:Hc; cbn [obind];
    try discriminate; destruct (isalnum c) eqn:Ha; try discriminate;
    try (intros [= <-]; reflexivity).
  intros Hj. rewrite <- (IH _ Hj).
  destruct (char_at_Done _ _ _ Hc) as [Hl | [_ ->]].
  - apply (points_from_literal _ _ c Hl).
    intros ->. rewrite isalnum_percent in Ha. discriminate.
  - rewrite isalnum_NUL in Ha. discriminate.
Qed.

(** ** Indexed access *)

Lemma VisitImpl_lt I tuple idx p v :
  I <= length tuple -> idx < I -> tuple !! idx = Some v ->
  VisitImpl I tuple idx p = Done (call p v).
Proof.
  induction I as [|I IH]; intros HI Hidx Hv; [lia|].
  simpl. destruct (Nat.eqb_spec idx I) as [->|Hne].
  - rewrite Hv. reflexivity.
  - apply IH; [lia | lia | exact Hv].
Qed.

Lemma VisitImpl_ge I tuple idx p :
  I <= idx -> VisitImpl I tuple idx p = Fault AssertFailed.
Proof.
  induction I as [|I IH]; intros HI; [reflexivity|].
  simpl. destruct (Nat.eqb_spec idx I) as [->|Hne]; [lia|].
  apply IH. lia.
Qed.

Lemma visit_lt tuple idx p v :
  tuple !! idx = Some v -> visit tuple idx p = Done (call p v).
Proof.
  intros Hv. unfold visit. apply VisitImpl_lt; [lia | | exact Hv].
  now apply lookup_lt_Some in Hv.
Qed.

Lemma visit_ge tuple idx p :
  length tuple <= idx -> visit tuple idx p = Fault AssertFailed.
Proof. intros H. unfold visit. now apply VisitImpl_ge. Qed.

(** ** One iteration of the scan *)

Lemma output_exhausted fmt tuple st :
  length tuple <= index st ->
  output fmt tuple st =
  Done {| printer := call (printer st) (AChar percent);
          index := index st; pos := pos st |}.
Proof.
  intros H. unfold output.
  destruct (Nat.ltb_spec (index st) (length tuple)); [lia | reflexivity].
Qed.

Lemma output_consume fmt tuple st v :
  tuple !! index st = Some v -> S (pos st) <= strlen fmt ->
  exists j, S (pos st) <= j <= strlen fmt /\
    points_from fmt j = points_from fmt (S (pos st)) /\
    output fmt tuple st =
    Done {| printer := {| _output := _output (call (printer st) v);
                          _defaultFlags := _defaultFlags (printer st) |};
            index := S (index st); pos := j - 1 |}.
Proof.
  intros Hv Hp. unfold output.
  pose proof (lookup_lt_Some _ _ _ Hv) as Hlt.
  destruct (Nat.ltb_spec (index st) (length tuple)); [|lia].
  rewrite (visit_lt _ _ _ _ Hv). cbn [obind].
  destruct (skip_alnum_Done fmt (strlen fmt) (pos st)) as [j [Hj Hb]]; [lia | lia |].
  exists j. split; [exact Hb|].
  split; [symmetry; exact (skip_alnum_points _ _ _ _ Hj)|].
  rewrite Hj. reflexivity.
Qed.

Lemma output_past fmt tuple st :
  index st < length tuple -> strlen fmt < S (pos st) ->
  output fmt tuple st = Fault ReadPastEnd.
Proof.
  intros Hi Hp. unfold output.
  destruct (Nat.ltb_spec (index st) (length tuple)); [|lia].
  destruct (lookup_lt_is_Some_2 tuple (index st) Hi) as [v Hv].
  rewrite (visit_lt _ _ _ _ Hv). cbn [obind].
  rewrite skip_alnum_past by lia. reflexivity.
Qed.

Lemma step_literal fmt tuple st c :
  chars fmt !! pos st = Some c -> c <> percent ->
  step fmt tuple st = Done (set_pos (ss_write st [c]) (S (pos st))).
Proof.
  intros Hc Hne. unfold step. rewrite (char_at_lookup _ _ _ Hc). cbn [obind].
  destruct (Ascii.eqb_spec c percent); [contradiction | reflexivity].
Qed.

Lemma step_escape fmt tuple st :
  chars fmt !! pos st = Some percent ->
  chars fmt !! S (pos st) = Some percent ->
  step fmt tuple st = Done (set_pos (ss_write st [percent]) (S (S (pos st)))).
Proof.
  intros Hc Hc1. unfold step.
  rewrite (char_at_lookup _ _ _ Hc). cbn [obind].
  rewrite Ascii.eqb_refl. cbn [negb].
  rewrite (char_at_lookup _ _ _ Hc1). cbn [obind].
  rewrite Ascii.eqb_refl. reflexivity.
Qed.

(** A [%] that is not an escape: the [switch] runs [case 'x'] when the
    next character is [x], then [default] calls [output] with [++i]. *)
Lemma step_substitution fmt tuple st c1 :
  chars fmt !! pos st = Some percent ->
  char_at fmt (S (pos st)) = Done c1 -> c1 <> percent ->
  step fmt tuple st =
  let st1 := if Ascii.eqb c1 "x"%char then case_x st else st in
  let! st2 := output fmt tuple (set_pos st1 (S (pos st1))) in
  Done (set_pos st2 (S (pos st2))).
Proof.
  intros Hc Hc1 Hne. unfold step.
  rewrite (char_at_lookup _ _ _ Hc). cbn [obind].
  rewrite Ascii.eqb_refl. cbn [negb].
  rewrite Hc1. cbn [obind].
  destruct (Ascii.eqb_spec c1 percent); [contradiction | reflexivity].
Qed.

Lemma step_exhausted fmt tuple st c1 :
  chars fmt !! pos st = Some percent ->
  char_at fmt (S (pos st)) = Done c1 -> c1 <> percent ->
  length tuple <= index st ->
  exists st', step fmt tuple st = Done st' /\
    buf (ss st') = buf (ss st) ++ hex_prefix c1 ++ [percent] /\
    index st' = index st /\ pos st' = S (S (pos st)) /\
    _defaultFlags (printer st') = 0%Z.
Proof.
  intros Hc Hc1 Hne Hex.
  rewrite (step_substitution _ _ _ _ Hc Hc1 Hne). cbn zeta.
  unfold hex_prefix. destruct (Ascii.eqb c1 "x"%char).
  - rewrite output_exhausted by exact Hex. cbn [obind].
    eexists. split; [reflexivity|].
    destruct st as [[[b f] d] ix p]. cbn.
    rewrite <- app_assoc. repeat split; reflexivity.
  - rewrite output_exhausted by exact Hex. cbn [obind].
    eexists. split; [reflexivity|].
    destruct st as [[[b f] d] ix p]. unfold call. cbn.
    destruct (d =? 0)%Z eqn:E; cbn; repeat split; try reflexivity.
    now apply Z.eqb_eq in E.
Qed.

Lemma step_consume fmt tuple st c1 v :
  chars fmt !! pos st = Some percent ->
  chars fmt !! S (pos st) = Some c1 -> c1 <> percent ->
  tuple !! index st = Some v ->
  exists st', step fmt tuple st = Done st' /\
    buf (ss st') =
      buf (ss st) ++ hex_prefix c1 ++ show (flags (ss st)) v /\
    index st' = S (index st) /\
    S (S (pos st)) <= pos st' <= S (strlen fmt) /\
    points_from fmt (pos st') = points_from fmt (S (S (pos st))).
Proof.
  intros Hc Hc1 Hne Hv.
  rewrite (step_substitution _ _ _ c1 Hc (char_at_lookup _ _ _ Hc1) Hne).
  cbn zeta. pose proof (lookup_lt_Some _ _ _ Hc1) as Hlt. fold (strlen fmt) in Hlt.
  unfold hex_prefix. destruct (Ascii.eqb c1 "x"%char).
  - destruct (output_consume fmt tuple (set_pos (case_x st) (S (pos (case_x st)))) v)
      as [j [Hb [Hpt ->]]]; [exact Hv | cbn; lia |]. cbn [obind].
    eexists. split; [reflexivity|].
    destruct st as [[[b f] d] ix p]. cbn in *. unfold call. cbn.
    rewrite <- app_assoc.
    replace (S (j - 1)) with j by lia.
    repeat split; try reflexivity; try lia. exact Hpt.
  - destruct (output_consume fmt tuple (set_pos st (S (pos st))) v)
      as [j [Hb [Hpt ->]]]; [exact Hv | cbn; lia |]. cbn [obind].
    eexists. split; [reflexivity|].
    destruct st as [[[b f] d] ix p]. cbn in *. unfold call. cbn.
    replace (S (j - 1)) with j by lia.
    destruct (d =? 0)%Z; cbn; repeat split; try reflexivity; try lia; exact Hpt.
Qed.

Lemma step_spec fmt tuple st :
  pos st < strlen fmt -> step_kind fmt tuple st (step fmt tuple st).
Proof.
  intros Hp.
  destruct (lookup_lt_is_Some_2 (chars fmt) (pos st) Hp) as [c Hc].
  destruct (ascii_dec c percent) as [->|Hne].
  2:{ rewrite (step_literal _ _ _ _ Hc Hne). now apply SK_literal. }
  destruct (char_at_total fmt (S (pos st))) as [c1 Hc1]; [lia|].
  destruct (ascii_dec c1 percent) as [->|Hne1].
  { destruct (char_at_Done _ _ _ Hc1) as [Hl | [_ Hn]]; [|discriminate Hn].
    rewrite (step_escape _ _ _ Hc Hl). now apply SK_escape. }
  destruct (Nat.lt_ge_cases (index st) (length tuple)) as [Hlt|Hge].
  2:{ destruct (step_exhausted _ _ _ _ Hc Hc1 Hne1 Hge)
        as [st' [-> [Hb [Hi [Hq Hd]]]]].
      now apply (SK_exhausted _ _ _ c1). }
  destruct (char_at_Done _ _ _ Hc1) as [Hl | [He _]].
  - destruct (lookup_lt_is_Some_2 tuple (index st) Hlt) as [v Hv].
    destruct (step_consume _ _ _ _ _ Hc Hl Hne1 Hv)
      as [st' [-> [Hb [Hi [Hq Hpt]]]]].
    now apply (SK_consume _ _ _ c1 v).
  - rewrite (step_substitution _ _ _ _ Hc Hc1 Hne1). cbn zeta.
    rewrite output_past.
    + now apply SK_past.
    + destruct (Ascii.eqb c1 "x"%char); exact Hlt.
    + destruct (Ascii.eqb c1 "x"%char); cbn; lia.
Qed.

Lemma step_progress fmt tuple st st' :
  pos st < strlen fmt -> step fmt tuple st = Done st' ->
  pos st < pos st' /\ index st <= index st' /\
  exists suffix, buf (ss st') = buf (ss st) ++ suffix.
Proof.
  intros Hp Hs. pose proof (step_spec fmt tuple st Hp) as K.
  rewrite Hs in K. inversion K; subst; cbn.
  - repeat split; [lia | lia | eauto].
  - repeat split; [lia | lia | eauto].
  - repeat split; [lia | lia | eauto].
  - repeat split; [lia | lia | eauto].
Qed.

Lemma step_fault fmt tuple st f :
  pos st < strlen fmt -> step fmt tuple st = Fault f ->
  f = ReadPastEnd /\ chars fmt !! pos st = Some percent /\
  S (pos st) = strlen fmt /\ index st < length tuple.
Proof.
  intros Hp Hs. pose proof (step_spec fmt tuple st Hp) as K.
  rewrite Hs in K. inversion K; subst. auto.
Qed.

(** ** The loop *)

Lemma run_done fmt tuple fuel st :
  strlen fmt <= pos st -> run fmt tuple fuel st = Done st.
Proof.
  intros H. destruct fuel; simpl;
    destruct (Nat.ltb_spec (pos st) (strlen fmt)); auto; lia.
Qed.

Lemma run_step fmt tuple fuel st st' :
  pos st < strlen fmt -> step fmt tuple st = Done st' ->
  run fmt tuple (S fuel) st = run fmt tuple fuel st'.
Proof.
  intros Hp Hs. simpl.
  destruct (Nat.ltb_spec (pos st) (strlen fmt)); [|lia].
  rewrite Hs. reflexivity.
Qed.

Lemma run_step_fault fmt tuple fuel st f :
  pos st < strlen fmt -> step fmt tuple st = Fault f ->
  run fmt tuple (S fuel) st = Fault f.
Proof.
  intros Hp Hs. simpl.
  destruct (Nat.ltb_spec (pos st) (strlen fmt)); [|lia].
  rewrite Hs. reflexivity.
Qed.

(** The fuel [format] supplies is never used up: every iteration advances
    [i]. *)
Lemma run_fuel fmt tuple fuel st :
  strlen fmt - pos st <= fuel -> run fmt tuple fuel st <> Fault OutOfFuel.
Proof.
  revert st. induction fuel as [|fuel IH]; intros st Hf.
  - rewrite run_done by lia. discriminate.
  - destruct (Nat.lt_ge_cases (pos st) (strlen fmt)) as [Hp|Hp].
    2:{ rewrite run_done by lia. discriminate. }
    destruct (step fmt tuple st) as [st'|f] eqn:Hs.
    + rewrite (run_step _ _ _ _ _ Hp Hs). apply IH.
      destruct (step_progress _ _ _ _ Hp Hs) as [Hlt _]. lia.
    + rewrite (run_step_fault _ _ _ _ _ Hp Hs).
      destruct (step_fault _ _ _ _ Hp Hs) as [-> _]. discriminate.
Qed.

Lemma run_fault fmt tuple fuel st f :
  strlen fmt - pos st <= fuel -> run fmt tuple fuel st = Fault f ->
  f = ReadPastEnd /\ last (chars fmt) = Some percent.
Proof.
  revert st. induction fuel as [|fuel IH]; intros st Hf Hr.
  - rewrite run_done in Hr by lia. discriminate.
  - destruct (Nat.lt_ge_cases (pos st) (strlen fmt)) as [Hp|Hp].
    2:{ rewrite run_done in Hr by lia. discriminate. }
    destruct (step fmt tuple st) as [st'|f'] eqn:Hs.
    + rewrite (run_step _ _ _ _ _ Hp Hs) in Hr. apply (IH st'); [|exact Hr].
      destruct (step_progress _ _ _ _ Hp Hs) as [Hlt _]. lia.
    + rewrite (run_step_fault _ _ _ _ _ Hp Hs) in Hr. injection Hr as <-.
      destruct (step_fault _ _ _ _ Hp Hs) as [-> [Hc [He _]]].
      split; [reflexivity|].
      rewrite last_lookup. unfold strlen in He. rewrite <- He. exact Hc.
Qed.

Lemma run_extends fmt tuple fuel st st' :
  run fmt tuple fuel st = Done st' ->
  index st <= index st' /\
  exists suffix, buf (ss st') = buf (ss st) ++ suffix.
Proof.
  revert st. induction fuel as [|fuel IH]; intros st Hr.
  - simpl in Hr. destruct (pos st <? strlen fmt); [discriminate|].
    injection Hr as <-. split; [lia|]. exists []. now rewrite app_nil_r.
  - destruct (Nat.lt_ge_cases (pos st) (strlen fmt)) as [Hp|Hp].
    2:{ rewrite run_done in Hr by lia. injection Hr as <-.
        split; [lia|]. exists []. now rewrite app_nil_r. }
    destruct (step fmt tuple st) as [st1|f] eqn:Hs.
    + rewrite (run_step _ _ _ _ _ Hp Hs) in Hr.
      destruct (IH _ Hr) as [Hi [s2 Hb2]].
      destruct (step_progress _ _ _ _ Hp Hs) as [_ [Hi1 [s1 Hb1]]].
      split; [lia|]. exists (s1 ++ s2). rewrite Hb2, Hb1. now rewrite app_assoc.
    + rewrite (run_step_fault _ _ _ _ _ Hp Hs) in Hr. discriminate.
Qed.

Lemma reaches_run fmt tuple st :
  reaches fmt tuple st ->
  exists fuel, strlen fmt - pos st <= fuel /\
    run fmt tuple (strlen fmt) init = run fmt tuple fuel st.
Proof.
  induction 1 as [|st st' _ [fuel [Hf Hr]] Hp Hs].
  - exists (strlen fmt). split; [lia | reflexivity].
  - destruct fuel as [|fuel]; [lia|].
    exists fuel. rewrite Hr, (run_step _ _ _ _ _ Hp Hs).
    destruct (step_progress _ _ _ _ Hp Hs) as [Hlt _]. split; [lia | reflexivity].
Qed.

(** Once the arguments are used up no iteration can fault. *)
Lemma run_exhausted fmt tuple fuel st :
  strlen fmt - pos st <= fuel -> length tuple <= index st ->
  exists st', run fmt tuple fuel st = Done st'.
Proof.
  revert st. induction fuel as [|fuel IH]; intros st Hf Hex.
  - exists st. apply run_done. lia.
  - destruct (Nat.lt_ge_cases (pos st) (strlen fmt)) as [Hp|Hp].
    2:{ exists st. apply run_done. lia. }
    destruct (step fmt tuple st) as [st1|f] eqn:Hs.
    + rewrite (run_step _ _ _ _ _ Hp Hs).
      destruct (step_progress _ _ _ _ Hp Hs) as [Hlt [Hi _]].
      apply IH; lia.
    + destruct (step_fault _ _ _ _ Hp Hs) as [_ [_ [_ Hlt]]]. lia.
Qed.

Lemma str_chars os : list_ascii_of_string (str os) = buf os.
Proof. unfold str. apply list_ascii_of_string_of_list_ascii. Qed.

(** What a reached state has written is a prefix of what [format]
    returns. *)
Lemma reaches_prefix fmt tuple st out :
  reaches fmt tuple st -> format fmt tuple = Done out ->
  exists rest, list_ascii_of_string out = buf (ss st) ++ rest.
Proof.
  intros Hr Hf. destruct (reaches_run _ _ _ Hr) as [fuel [_ E]].
  unfold format in Hf. rewrite E in Hf.
  destruct (run fmt tuple fuel st) as [st'|] eqn:Hrun; [|discriminate].
  cbn in Hf. injection Hf as <-.
  destruct (run_extends _ _ _ _ _ Hrun) as [_ [rest Hb]].
  exists rest. now rewrite str_chars.
Qed.

Lemma format_not_out_of_fuel fmt tuple : format fmt tuple <> Fault OutOfFuel.
Proof.
  unfold format.
  pose proof (run_fuel fmt tuple (strlen fmt) init) as H.
  destruct (run fmt tuple (strlen fmt) init); cbn; [discriminate|].
  intros [= ->]. apply H; [cbn; lia | reflexivity].
Qed.

(** [format] returns unless the format string ends in a [%] that is
    reached while arguments remain. *)
Lemma format_returns fmt tuple :
  last (chars fmt) <> Some percent -> exists out, format fmt tuple = Done out.
Proof.
  intros Hl. unfold format.
  destruct (run fmt tuple (strlen fmt) init) as [st|f] eqn:Hr.
  - eexists. reflexivity.
  - apply run_fault in Hr; [|cbn; lia]. destruct Hr as [_ Hr]. contradiction.
Qed.

(** ** Two argument lists that agree on what is consumed *)

Lemma output_agree fmt A B st st' :
  length B <= length A ->
  output fmt A st = Done st' -> index st' <= length B ->
  (forall k, k < index st' -> A !! k = B !! k) ->
  output fmt B st = Done st'.
Proof.
  intros Hlen HA Hi Hag. unfold output in *.
  destruct (Nat.ltb_spec (index st) (length A)) as [HlA|HgeA].
  - destruct (lookup_lt_is_Some_2 A (index st) HlA) as [v Hv].
    rewrite (visit_lt _ _ _ _ Hv) in HA. cbn [obind] in HA.
    destruct (skip_alnum (strlen fmt) fmt (pos st)) as [j|] eqn:Hj;
      [|discriminate].
    cbn [obind] in HA. injection HA as <-. cbn in Hi, Hag.
    destruct (Nat.ltb_spec (index st) (length B)); [|lia].
    rewrite Hag in Hv by lia.
    rewrite (visit_lt _ _ _ _ Hv). cbn [obind]. reflexivity.
  - injection HA as <-. cbn in Hi.
    destruct (Nat.ltb_spec (index st) (length B)); [lia | reflexivity].
Qed.

Lemma step_agree fmt A B st st' :
  length B <= length A ->
  step fmt A st = Done st' -> index st' <= length B ->
  (forall k, k < index st' -> A !! k = B !! k) ->
  step fmt B st = Done st'.
Proof.
  intros Hlen HA Hi Hag. unfold step in *.
  destruct (char_at fmt (pos st)) as [c|]; [|discriminate]. cbn [obind] in *.
  destruct (negb (Ascii.eqb c percent)); [exact HA|].
  destruct (char_at fmt (S (pos st))) as [c1|]; [|discriminate].
  cbn [obind] in *.
  destruct (Ascii.eqb c1 percent); [exact HA|].
  match type of HA with
  | obind (output fmt A ?s) _ = _ =>
      destruct (output fmt A s) as [st2|] eqn:Ho; [|discriminate]
  end.
  cbn [obind] in HA. injection HA as <-. cbn in Hi, Hag.
  rewrite (output_agree _ _ _ _ _ Hlen Ho Hi Hag). reflexivity.
Qed.

Lemma run_agree fmt A B fuel st st' :
  length B <= length A ->
  run fmt A fuel st = Done st' -> index st' <= length B ->
  (forall k, k < index st' -> A !! k = B !! k) ->
  run fmt B fuel st = Done st'.
Proof.
  intros Hlen. revert st. induction fuel as [|fuel IH]; intros st HA Hi Hag.
  - simpl in *. destruct (pos st <? strlen fmt); [discriminate | exact HA].
  - destruct (Nat.lt_ge_cases (pos st) (strlen fmt)) as [Hp|Hp].
    2:{ rewrite run_done in * by lia. exact HA. }
    destruct (step fmt A st) as [st1|f] eqn:Hs.
    + rewrite (run_step _ _ _ _ _ Hp Hs) in HA.
      destruct (run_extends _ _ _ _ _ HA) as [Hmono _].
      assert (step fmt B st = Done st1) as HsB.
      { apply (step_agree fmt A B); auto; [lia|].
        intros k Hk. apply Hag. lia. }
      rewrite (run_step _ _ _ _ _ Hp HsB). now apply IH.
    + rewrite (run_step_fault _ _ _ _ _ Hp Hs) in HA. discriminate.
Qed.

(** ** A format string without [%] *)

Lemma run_literal fmt tuple fuel st :
  (forall k, chars fmt !! k <> Some percent) ->
  pos st <= strlen fmt -> strlen fmt - pos st <= fuel ->
  exists st', run fmt tuple fuel st = Done st' /\
    buf (ss st') = buf (ss st) ++ drop (pos st) (chars fmt) /\
    index st' = index st.
Proof.
  intros Hno. revert st. induction fuel as [|fuel IH]; intros st Hle Hf.
  - exists st. rewrite run_done by lia.
    rewrite drop_ge by (unfold strlen in *; lia).
    rewrite app_nil_r. auto.
  - destruct (Nat.lt_ge_cases (pos st) (strlen fmt)) as [Hp|Hp].
    2:{ exists st. rewrite run_done by lia.
        rewrite drop_ge by (unfold strlen in *; lia).
        rewrite app_nil_r. auto. }
    destruct (lookup_lt_is_Some_2 (chars fmt) (pos st) Hp) as [c Hc].
    assert (c <> percent) as Hne by (intros ->; exact (Hno _ Hc)).
    rewrite (run_step _ _ _ _ _ Hp (step_literal _ tuple _ _ Hc Hne)).
    destruct (IH (set_pos (ss_write st [c]) (S (pos st)))) as [st' [Hr [Hb Hi]]];
      [cbn; lia | cbn; lia |].
    exists st'. split; [exact Hr|]. split; [|exact Hi].
    rewrite Hb. cbn. rewrite (drop_S _ _ _ Hc), <- app_assoc. reflexivity.
Qed.

Lemma run_no_assert fmt tuple fuel st :
  run fmt tuple fuel st <> Fault AssertFailed.
Proof.
  revert st. induction fuel as [|fuel IH]; intros st.
  - simpl. destruct (pos st <? strlen fmt); discriminate.
  - destruct (Nat.lt_ge_cases (pos st) (strlen fmt)) as [Hp|Hp].
    2:{ rewrite run_done by lia. discriminate. }
    destruct (step fmt tuple st) as [st1|f] eqn:Hs.
    + rewrite (run_step _ _ _ _ _ Hp Hs). apply IH.
    + rewrite (run_step_fault _ _ _ _ _ Hp Hs).
      destruct (step_fault _ _ _ _ Hp Hs) as [-> _]. discriminate.
Qed.

(** Arguments that were not consumed have no influence on the result. *)
Lemma format_ignores_unconsumed fmt args extra k :
  consumed fmt (args ++ extra) = Done k -> k <= length args ->
  format fmt (args ++ extra) = format fmt args.
Proof.
  unfold consumed, format. intros Hc Hk.
  destruct (run fmt (args ++ extra) (strlen fmt) init) as [st|] eqn:Hr;
    [|discriminate].
  cbn [obind] in Hc. injection Hc as <-.
  rewrite (run_agree fmt (args ++ extra) args _ _ _ ltac:(rewrite length_app; lia) Hr Hk).
  - reflexivity.
  - intros j Hj. apply lookup_app_l. lia.
Qed.

(** ** At least as many arguments as substitution points *)

Lemma not_escape fmt k c1 :
  char_at fmt (S k) = Done c1 -> c1 <> percent ->
  chars fmt !! S k <> Some percent.
Proof.
  intros Hc1 Hne Hl. rewrite (char_at_lookup _ _ _ Hl) in Hc1.
  injection Hc1 as <-. now apply Hne.
Qed.

(** While the arguments left cover the substitution points left, each
    iteration keeps the sum of the consumed arguments and the points still
    ahead. *)
Lemma step_points fmt tuple st st' :
  pos st < strlen fmt ->
  index st + points_from fmt (pos st) <= length tuple ->
  step fmt tuple st = Done st' ->
  index st' + points_from fmt (pos st') = index st + points_from fmt (pos st).
Proof.
  intros Hp Hinv Hs. pose proof (step_spec fmt tuple st Hp) as K.
  rewrite Hs in K. inversion K; subst; cbn.
  - now rewrite (points_from_literal _ _ c).
  - now rewrite points_from_escape.
  - match goal with
    | Hc : chars fmt !! pos st = Some percent,
      Hc1 : char_at fmt (S (pos st)) = Done c1 |- _ =>
        rewrite (points_from_substitution _ _ Hc
                   (not_escape _ _ _ Hc1 ltac:(assumption))) in Hinv
    end. lia.
  - match goal with
    | Hc : chars fmt !! pos st = Some percent,
      Hc1 : chars fmt !! S (pos st) = Some c1 |- _ =>
        rewrite (points_from_substitution _ _ Hc
                   (not_escape _ _ _ (char_at_lookup _ _ _ Hc1) ltac:(assumption)))
    end. lia.
Qed.

Lemma output_extra fmt args extra st :
  index st < length args ->
  output fmt (args ++ extra) st = output fmt args st.
Proof.
  intros Hlt. unfold output.
  destruct (lookup_lt_is_Some_2 args (index st) Hlt) as [v Hv].
  rewrite (visit_lt args _ _ _ Hv).
  rewrite (visit_lt (args ++ extra) _ _ v) by (now apply lookup_app_l_Some).
  rewrite length_app.
  destruct (Nat.ltb_spec (index st) (length args)); [|lia].
  destruct (Nat.ltb_spec (index st) (length args + length extra)); [|lia].
  reflexivity.
Qed.

Lemma step_extra fmt args extra st :
  pos st < strlen fmt ->
  index st + points_from fmt (pos st) <= length args ->
  step fmt (args ++ extra) st = step fmt args st.
Proof.
  intros Hp Hinv.
  destruct (lookup_lt_is_Some_2 (chars fmt) (pos st) Hp) as [c Hc].
  destruct (ascii_dec c percent) as [->|Hne].
  2:{ now rewrite !(step_literal _ _ _ _ Hc Hne). }
  destruct (char_at_total fmt (S (pos st))) as [c1 Hc1]; [lia|].
  destruct (ascii_dec c1 percent) as [->|Hne1].
  { destruct (char_at_Done _ _ _ Hc1) as [Hl | [_ Hn]]; [|discriminate Hn].
    now rewrite !(step_escape _ _ _ Hc Hl). }
  rewrite (points_from_substitution _ _ Hc (not_escape _ _ _ Hc1 Hne1)) in Hinv.
  rewrite !(step_substitution _ _ _ _ Hc Hc1 Hne1). cbn zeta.
  rewrite output_extra; [reflexivity|].
  destruct (Ascii.eqb c1 "x"%char); cbn; lia.
Qed.

Lemma run_extra fmt args extra fuel st :
  index st + points_from fmt (pos st) <= length args ->
  run fmt (args ++ extra) fuel st = run fmt args fuel st.
Proof.
  revert st. induction fuel as [|fuel IH]; intros st Hinv; [reflexivity|].
  destruct (Nat.lt_ge_cases (pos st) (strlen fmt)) as [Hp|Hp].
  2:{ now rewrite !run_done by lia. }
  pose proof (step_extra fmt args extra st Hp Hinv) as E.
  destruct (step fmt args st) as [st'|f] eqn:Hs.
  - rewrite (run_step _ _ _ _ _ Hp E), (run_step _ _ _ _ _ Hp Hs).
    apply IH. rewrite (step_points _ _ _ _ Hp Hinv Hs). exact Hinv.
  - now rewrite (run_step_fault _ _ _ _ _ Hp E), (run_step_fault _ _ _ _ _ Hp Hs).
Qed.

Lemma run_consumes fmt tuple fuel st st' :
  strlen fmt - pos st <= fuel ->
  index st + points_from fmt (pos st) <= length tuple ->
  run fmt tuple fuel st = Done st' ->
  index st' = index st + points_from fmt (pos st).
Proof.
  revert st. induction fuel as [|fuel IH]; intros st Hf Hinv Hr.
  - rewrite run_done in Hr by lia. injection Hr as <-.
    rewrite points_from_past by lia. lia.
  - destruct (Nat.lt_ge_cases (pos st) (strlen fmt)) as [Hp|Hp].
    2:{ rewrite run_done in Hr by lia. injection Hr as <-.
        rewrite points_from_past by lia. lia. }
    destruct (step fmt tuple st) as [st1|f] eqn:Hs.
    + rewrite (run_step _ _ _ _ _ Hp Hs) in Hr.
      pose proof (step_points _ _ _ _ Hp Hinv Hs) as E.
      destruct (step_progress _ _ _ _ Hp Hs) as [Hlt _].
      rewrite (IH st1); [exact E | lia | lia | exact Hr].
    + rewrite (run_step_fault _ _ _ _ _ Hp Hs) in Hr. discriminate.
Qed.

Lemma points_from_start fmt : points_from fmt 0 = substitution_points fmt.
Proof. reflexivity. Qed.

(** ** The format engine: the claims *)

(** C3. When the scan of [format(fmt, tuple...)] stands on a [%] that is
    not an escape and every argument has already been consumed, the
    iteration writes a literal [%] (after the [0x] of a [%x]), consumes
    nothing, and the call returns normally with that [%] in its result. *)
Theorem exhausted_arguments_render_percent fmt tuple st c1 :
  reaches fmt tuple st ->
  chars fmt !! pos st = Some percent ->
  char_at fmt (S (pos st)) = Done c1 -> c1 <> percent ->
  length tuple <= index st ->
  exists st' out,
    step fmt tuple st = Done st' /\
    buf (ss st') = buf (ss st) ++ hex_prefix c1 ++ [percent] /\
    index st' = index st /\
    format fmt tuple = Done out /\
    exists rest,
      list_ascii_of_string out = buf (ss st) ++ hex_prefix c1 ++ [percent] ++ rest.
Proof.
  intros Hr Hc Hc1 Hne Hex.
  pose proof (lookup_lt_Some _ _ _ Hc) as Hp. fold (strlen fmt) in Hp.
  destruct (step_exhausted _ _ _ _ Hc Hc1 Hne Hex) as [st' [Hs [Hb [Hi [Hq _]]]]].
  pose proof (reaches_step _ _ _ _ Hr Hp Hs) as Hr'.
  destruct (reaches_run _ _ _ Hr') as [fuel [Hf E]].
  destruct (run_exhausted fmt tuple fuel st' Hf) as [stf Hrun]; [lia|].
  assert (format fmt tuple = Done (str (ss stf))) as Hfmt.
  { unfold format. rewrite E, Hrun. reflexivity. }
  exists st', (str (ss stf)). repeat split; try assumption.
  destruct (reaches_prefix _ _ _ _ Hr' Hfmt) as [rest Hrest].
  exists rest. rewrite Hrest, Hb. now rewrite <- !app_assoc.
Qed.

(** [format("%d%x", 7)]: the [%x] is reached with the only argument used
    up, and the call returns ["70x%"]. *)
Lemma exhausted_arguments_render_percent_witness :
  reaches "%d%x" [AInt 7] after_seven /\
  length [AInt 7] <= index after_seven /\
  exists st' out,
    step "%d%x" [AInt 7] after_seven = Done st' /\
    buf (ss st') = buf (ss after_seven) ++ hex_prefix "x" ++ [percent] /\
    index st' = index after_seven /\
    format "%d%x" [AInt 7] = Done out /\
    exists rest,
      list_ascii_of_string out =
      buf (ss after_seven) ++ hex_prefix "x" ++ [percent] ++ rest.
Proof.
  assert (reaches "%d%x" [AInt 7] after_seven) as Hr.
  { apply (reaches_step _ _ init); [apply reaches_init | cbn; lia | reflexivity]. }
  split; [exact Hr|]. split; [cbn; lia|].
  apply (exhausted_arguments_render_percent "%d%x" [AInt 7] after_seven "x");
    [exact Hr | reflexivity | reflexivity | discriminate | cbn; lia].
Defined.

(** C6. Wherever the scan stands on [%] followed by [%], the iteration
    writes exactly one [%], consumes no argument, leaves the stream's flags
    and the printer's pending flag as they were, and moves past both
    characters; [format("100%% done")] is ["100% done"] whatever arguments
    are passed. *)
Theorem escaped_percent_renders_once fmt tuple st :
  chars fmt !! pos st = Some percent ->
  chars fmt !! S (pos st) = Some percent ->
  (exists st',
    step fmt tuple st = Done st' /\
    buf (ss st') = buf (ss st) ++ [percent] /\
    index st' = index st /\
    flags (ss st') = flags (ss st) /\
    _defaultFlags (printer st') = _defaultFlags (printer st) /\
    pos st' = S (S (pos st))) /\
  (forall args, format "100%% done" args = Done "100% done"%string).
Proof.
  intros Hc Hc1. split.
  - rewrite (step_escape _ _ _ Hc Hc1). eexists. split; [reflexivity|].
    cbn. repeat split; reflexivity.
  - intros args. vm_compute. reflexivity.
Qed.

(** The escape of ["1%%"], reached after the ["1"]. *)
Lemma escaped_percent_renders_once_witness :
  (exists st',
    step "1%%" [AInt 5] after_one = Done st' /\
    buf (ss st') = buf (ss after_one) ++ [percent] /\
    index st' = index after_one /\
    flags (ss st') = flags (ss after_one) /\
    _defaultFlags (printer st') = _defaultFlags (printer after_one) /\
    pos st' = S (S (pos after_one))) /\
  (forall args, format "100%% done" args = Done "100% done"%string).
Proof.
  apply (escaped_percent_renders_once "1%%" [AInt 5] after_one); reflexivity.
Defined.

(** C7. Arguments are consumed from left to right, one per substitution:
    [index] starts at [0]; an iteration either leaves it alone or renders
    exactly the argument it designates and advances it by one. When the
    argument list is at least as long as the number of substitution
    points, a call that returns has consumed exactly that many arguments,
    and the arguments after them do not influence the result: the call
    with the extra arguments and the call without them give the same
    outcome. *)
Theorem arguments_consumed_in_order :
  index init = 0 /\
  (forall fmt tuple st st',
    pos st < strlen fmt -> step fmt tuple st = Done st' ->
    index st' = index st \/
    exists v prefix,
      tuple !! index st = Some v /\ index st' = S (index st) /\
      buf (ss st') = buf (ss st) ++ prefix ++ show (flags (ss st)) v) /\
  (forall fmt tuple k,
    substitution_points fmt <= length tuple ->
    consumed fmt tuple = Done k -> k = substitution_points fmt) /\
  (forall fmt args extra,
    substitution_points fmt <= length args ->
    format fmt (args ++ extra) = format fmt args) /\
  (forall fmt args extra k,
    consumed fmt (args ++ extra) = Done k -> k <= length args ->
    format fmt (args ++ extra) = format fmt args).
Proof.
  split; [reflexivity|]. split; [|split; [|split]].
  - intros fmt tuple st st' Hp Hs.
    pose proof (step_spec fmt tuple st Hp) as K. rewrite Hs in K.
    inversion K; subst; cbn; auto.
    right. exists v, (hex_prefix c1). auto.
  - intros fmt tuple k Hn. unfold consumed.
    destruct (run fmt tuple (strlen fmt) init) as [st|] eqn:Hr; [|discriminate].
    cbn [obind]. intros [= <-].
    apply (run_consumes fmt tuple (strlen fmt) init st);
      [cbn; lia | exact Hn | exact Hr].
  - intros fmt args extra Hn. unfold format.
    rewrite run_extra; [reflexivity | exact Hn].
  - exact format_ignores_unconsumed.
Qed.

(** [format("<%s:%d>", "a", 2, 3)]: two substitution points, three
    arguments; the third has no effect. *)
Lemma arguments_consumed_in_order_witness :
  (exists st',
    step "<%s:%d>" [AStr "a"; AInt 2; AInt 3] after_bracket = Done st' /\
    (index st' = index after_bracket \/
     exists v prefix,
       [AStr "a"; AInt 2; AInt 3] !! index after_bracket = Some v /\
       index st' = S (index after_bracket) /\
       buf (ss st') =
       buf (ss after_bracket) ++ prefix ++ show (flags (ss after_bracket)) v)) /\
  substitution_points "<%s:%d>" = 2 /\
  consumed "<%s:%d>" [AStr "a"; AInt 2; AInt 3] = Done 2 /\
  format "<%s:%d>" ([AStr "a"; AInt 2] ++ [AInt 3]) =
  format "<%s:%d>" [AStr "a"; AInt 2] /\
  format "<%s:%d>" [AStr "a"; AInt 2] = Done "<a:2>"%string.
Proof.
  destruct arguments_consumed_in_order as [_ [Hstep [Hk [Hextra _]]]].
  split; [|split; [|split; [|split]]].
  - eexists. split; [vm_compute; reflexivity|].
    apply (Hstep "<%s:%d>" [AStr "a"; AInt 2; AInt 3] after_bracket);
      [cbn; lia | vm_compute; reflexivity].
  - reflexivity.
  - reflexivity.
  - apply (Hextra "<%s:%d>" [AStr "a"; AInt 2] [AInt 3]). cbn. lia.
  - reflexivity.
Defined.

(** C8. A format string without any [%] is returned unchanged, whatever
    the argument list. *)
Theorem format_without_percent fmt args :
  ~ In percent (chars fmt) -> format fmt args = Done fmt.
Proof.
  intros Hno.
  destruct (run_literal fmt args (strlen fmt) init) as [st [Hr [Hb _]]].
  - intros k Hk. apply Hno. apply list_elem_of_In.
    apply list_elem_of_lookup. eauto.
  - cbn. lia.
  - cbn. lia.
  - unfold format. rewrite Hr. cbn [obind]. unfold str. rewrite Hb.
    change (buf (ss init)) with (@nil ascii). change (pos init) with 0.
    rewrite drop_0. cbn [app]. unfold chars.
    now rewrite string_of_list_ascii_of_string.
Qed.

(** A format string without [%], called with two arguments. *)
Lemma format_without_percent_witness :
  ~ In percent (chars "listening on port") /\
  format "listening on port" [AInt 8388; AStr "unused"] =
  Done "listening on port"%string.
Proof.
  assert (~ In percent (chars "listening on port")) as Hno.
  { cbn. intros H. repeat (destruct H as [H|H]; [discriminate H|]). exact H. }
  split; [exact Hno|].
  apply (format_without_percent "listening on port" _ Hno).
Defined.

(** C9. [format] never calls [visit] with an index outside the tuple: the
    only call is guarded by [index < tupleSize], so no run of the loop, from
    any state and with any fuel, ends in the failed assertion; [visit]
    itself fails the assertion exactly when the index is out of range. *)
Theorem format_never_fails_the_assertion :
  (forall fmt tuple, format fmt tuple <> Fault AssertFailed) /\
  (forall fmt tuple fuel st, run fmt tuple fuel st <> Fault AssertFailed) /\
  (forall fmt tuple st, output fmt tuple st <> Fault AssertFailed) /\
  (forall tuple idx p,
    visit tuple idx p = Fault AssertFailed <-> length tuple <= idx).
Proof.
  split; [|split; [|split]].
  - intros fmt tuple. unfold format.
    pose proof (run_no_assert fmt tuple (strlen fmt) init) as H.
    destruct (run fmt tuple (strlen fmt) init); cbn; congruence.
  - exact run_no_assert.
  - intros fmt tuple st. unfold output.
    destruct (Nat.ltb_spec (index st) (length tuple)) as [Hlt|Hge];
      [|discriminate].
    destruct (lookup_lt_is_Some_2 tuple (index st) Hlt) as [v Hv].
    rewrite (visit_lt _ _ _ _ Hv). cbn [obind].
    destruct (skip_alnum (strlen fmt) fmt (pos st)) as [j|f] eqn:Hj;
      cbn; [discriminate|].
    destruct (Nat.le_gt_cases (S (pos st)) (strlen fmt)) as [Hle|Hgt].
    + destruct (skip_alnum_Done fmt (strlen fmt) (pos st)) as [j [E _]];
        [lia | lia | congruence].
    + rewrite skip_alnum_past in Hj by lia. congruence.
  - intros tuple idx p. split.
    + intros Hv. destruct (Nat.le_gt_cases (length tuple) idx) as [|Hlt];
        [assumption|].
      destruct (lookup_lt_is_Some_2 tuple idx Hlt) as [v Hl].
      rewrite (visit_lt _ _ _ _ Hl) in Hv. discriminate.
    + apply visit_ge.
Qed.

(** More substitution points than arguments: [format] does not fail the
    assertion, a direct [visit] at index 1 of a one-element tuple does. *)
Lemma format_never_fails_the_assertion_witness :
  format "%d %d %d" [AInt 1] <> Fault AssertFailed /\
  visit [AInt 1] 1 (new_printer stringstream) = Fault AssertFailed.
Proof.
  destruct format_never_fails_the_assertion as [Hf [_ [_ Hv]]]. split.
  - apply (Hf "%d %d %d" [AInt 1]).
  - apply (Hv [AInt 1] 1 (new_printer stringstream)). cbn. lia.
Defined.

(** C10. At a [%] that is not followed by a second [%], the character
    after it is never written: the iteration writes only the [0x] of a
    [%x] and then either the rendering of the consumed argument or, when
    the arguments are used up, a literal [%]; the scan resumes at least
    two positions further on. ["% a"] without arguments gives ["%a"], and
    ["%s"] without arguments gives ["%"]. *)
Theorem character_after_percent_is_dropped fmt tuple st c1 :
  chars fmt !! pos st = Some percent ->
  chars fmt !! S (pos st) = Some c1 -> c1 <> percent ->
  (exists st',
    step fmt tuple st = Done st' /\
    S (S (pos st)) <= pos st' /\
    ((length tuple <= index st /\ pos st' = S (S (pos st)) /\
      buf (ss st') = buf (ss st) ++ hex_prefix c1 ++ [percent]) \/
     (exists v, tuple !! index st = Some v /\
      buf (ss st') = buf (ss st) ++ hex_prefix c1 ++ show (flags (ss st)) v))) /\
  format "% a" [] = Done "%a"%string /\
  format "%s" [] = Done "%"%string.
Proof.
  intros Hc Hc1 Hne. split; [|split; reflexivity].
  destruct (Nat.lt_ge_cases (index st) (length tuple)) as [Hlt|Hge].
  - destruct (lookup_lt_is_Some_2 tuple (index st) Hlt) as [v Hv].
    destruct (step_consume _ _ _ _ _ Hc Hc1 Hne Hv) as [st' [Hs [Hb [_ [Hq _]]]]].
    exists st'. split; [exact Hs|]. split; [lia|]. right. eauto.
  - destruct (step_exhausted _ _ _ _ Hc (char_at_lookup _ _ _ Hc1) Hne Hge)
      as [st' [Hs [Hb [_ [Hq _]]]]].
    exists st'. split; [exact Hs|]. split; [lia|]. left. auto.
Qed.

(** The first iteration of [format("% a")]: the space is stepped over. *)
Lemma character_after_percent_is_dropped_witness :
  (exists st',
    step "% a" [] init = Done st' /\
    2 <= pos st' /\
    ((length (@nil Arg) <= 0 /\ pos st' = 2 /\
      buf (ss st') = [] ++ hex_prefix " " ++ [percent]) \/
     (exists v, (@nil Arg) !! 0 = Some v /\
      buf (ss st') = [] ++ hex_prefix " " ++ show 4098%Z v))) /\
  format "% a" [] = Done "%a"%string /\
  format "%s" [] = Done "%"%string.
Proof.
  apply (character_after_percent_is_dropped "% a" [] init " ");
    [reflexivity | reflexivity | discriminate].
Defined.

(** ** The hexadecimal flag *)

Lemma step_with_stored fmt tuple st :
  step_with setFlag fmt tuple st = step fmt tuple st.
Proof. reflexivity. Qed.

Lemma run_with_stored fmt tuple fuel st :
  run_with setFlag fmt tuple fuel st = run fmt tuple fuel st.
Proof.
  revert st. induction fuel as [|fuel IH]; intros st; [reflexivity|].
  simpl. destruct (pos st <? strlen fmt); [|reflexivity].
  rewrite step_with_stored. destruct (step fmt tuple st); auto.
Qed.

(** The loop with the bodies as arguments is the loop of [format]. *)
Lemma format_with_stored fmt tuple :
  format_with setFlag new_printer fmt tuple = format fmt tuple.
Proof. unfold format_with, format. now rewrite run_with_stored. Qed.


(** With [dec] set the base is decimal, whatever else is set; the sign of
    a value that is not negative is as [showpos] says. *)
Lemma show_int_dec_bit f z :
  Z.testbit f 1 = true -> show_int f z = signed_decimal (Z.testbit f 11) z.
Proof.
  intros Hb. unfold show_int.
  assert (Z.testbit (Z.land f ios_basefield) 1 = true) as Hl
    by (rewrite Z.land_spec, Hb; reflexivity).
  destruct (Z.eqb_spec (Z.land f ios_basefield) ios_hex) as [E|_].
  { rewrite E in Hl. discriminate Hl. }
  destruct (Z.eqb_spec (Z.land f ios_basefield) ios_oct) as [E|_].
  { rewrite E in Hl. discriminate Hl. }
  reflexivity.
Qed.









(** With the body that keeps the flag in the printer, [format] gives the
    text of the specification's end-to-end example. *)
Example format_login_example :
  format "user %s logged in with code %x" [AStr "alice"; AInt 255] =
  Done "user alice logged in with code 0x255"%string.
Proof. reflexivity. Qed.

(** ** The logging entry points: the claims *)

Section EntryPointFacts.
Context {World : Type}.
Variable log_message : LoggerLevel -> string -> World -> World.

Lemma level_eqb_spec a b : level_eqb a b = true <-> a = b.
Proof. destruct a, b; cbn; split; intros E; try reflexivity; discriminate E. Qed.

(** C1, as amended. The entry point that returns the rendered text is the
    level-parameterised [log(level, fmt, args...)], for every level but
    emergency and whatever the private overload does with the message; the
    level-keyed entry points [verbose], [debug], [info], [warning] and
    [error] hand the same text to that overload and return nothing. *)
Theorem log_returns_rendered_text level fmt args w message :
  format fmt args = Done message -> level <> LL_EMERGENCY ->
  log log_message level fmt args w =
    Returned (RString message) (log_message level message w) /\
  verbose log_message fmt args w =
    Returned RVoid (log_message LL_VERBOSE message w) /\
  debug log_message fmt args w =
    Returned RVoid (log_message LL_DEBUG message w) /\
  info log_message fmt args w =
    Returned RVoid (log_message LL_INFO message w) /\
  warning log_message fmt args w =
    Returned RVoid (log_message LL_WARNING message w) /\
  error log_message fmt args w =
    Returned RVoid (log_message LL_ERROR message w).
Proof.
  intros Hf Hl.
  unfold log, verbose, debug, info, warning, error, log_formatted.
  rewrite Hf. split; [|repeat split; reflexivity].
  destruct (level_eqb level LL_EMERGENCY) eqn:E; [|reflexivity].
  apply level_eqb_spec in E. contradiction.
Qed.

(** C4. The emergency entry point hands the formatted message to the
    private overload and then ends the process with [OPERATOR_FAILURE],
    whatever the state of the process (so whatever the threshold) and
    whatever the overload does; it never returns to its caller. The other
    level-keyed entry points return, and [log] ends the process, with the
    same status, exactly at the emergency level. *)
Theorem emergency_exits_after_logging fmt args w message :
  format fmt args = Done message ->
  emergency log_message fmt args w =
    Exited OPERATOR_FAILURE (log_message LL_EMERGENCY message w) /\
  OPERATOR_FAILURE = (-1)%Z /\
  (forall r w', emergency log_message fmt args w <> Returned r w') /\
  (forall status w',
    verbose log_message fmt args w <> Exited status w' /\
    debug log_message fmt args w <> Exited status w' /\
    info log_message fmt args w <> Exited status w' /\
    warning log_message fmt args w <> Exited status w' /\
    error log_message fmt args w <> Exited status w') /\
  (forall level,
    log log_message level fmt args w =
      if level_eqb level LL_EMERGENCY
      then Exited OPERATOR_FAILURE (log_message level message w)
      else Returned (RString message) (log_message level message w)).
Proof.
  intros Hf.
  unfold emergency, log, verbose, debug, info, warning, error, log_formatted.
  rewrite Hf.
  split; [reflexivity|]. split; [reflexivity|].
  split; [intros r w'; discriminate|].
  split; [intros status w'; repeat split; discriminate|].
  intros level. destruct (level_eqb level LL_EMERGENCY); reflexivity.
Qed.

End EntryPointFacts.

(** C1, as stated, fails: called with text that renders, [verbose] hands
    nothing back to its caller ([void]), and [emergency] does not return
    at all. *)
Lemma level_entry_points_return_no_text :
  format "up" [] = Done "up"%string /\
  verbose keep_message "up" [] [] = Returned RVoid [(LL_VERBOSE, "up"%string)] /\
  (forall w', verbose keep_message "up" [] [] <> Returned (RString "up") w') /\
  (forall r w', emergency keep_message "up" [] [] <> Returned r w').
Proof.
  repeat split; try reflexivity; intros; discriminate.
Qed.

(** [log(LL_DEBUG, "port %d", 8388)] returns ["port 8388"] whether the
    private overload drops the message or keeps it. *)
Lemma log_returns_rendered_text_witness :
  format "port %d" [AInt 8388] = Done "port 8388"%string /\
  LL_DEBUG <> LL_EMERGENCY /\
  log drop_message LL_DEBUG "port %d" [AInt 8388] [] =
    Returned (RString "port 8388") [] /\
  log keep_message LL_DEBUG "port %d" [AInt 8388] [] =
    Returned (RString "port 8388") [(LL_DEBUG, "port 8388"%string)].
Proof.
  split; [reflexivity|]. split; [discriminate|]. split.
  - apply (log_returns_rendered_text drop_message LL_DEBUG "port %d"
             [AInt 8388] [] "port 8388"); [reflexivity | discriminate].
  - apply (log_returns_rendered_text keep_message LL_DEBUG "port %d"
             [AInt 8388] [] "port 8388"); [reflexivity | discriminate].
Defined.

(** [emergency("bind failed: %d", 98)]: the message is delivered, then the
    process ends with status [-1]. *)
Lemma emergency_exits_after_logging_witness :
  format "bind failed: %d" [AInt 98] = Done "bind failed: 98"%string /\
  emergency keep_message "bind failed: %d" [AInt 98] [] =
    Exited (-1)%Z [(LL_EMERGENCY, "bind failed: 98"%string)].
Proof.
  split; [reflexivity|].
  apply (emergency_exits_after_logging keep_message "bind failed: %d"
           [AInt 98] [] "bind failed: 98"). reflexivity.
Defined.

(** ** The registry: the claim *)

Section RegistryFacts.
Context `{Countable LoggerName} {SsLoggerPtr : Type}.
Implicit Types (reg : gmap LoggerName SsLoggerPtr) (name : LoggerName).

Lemma removeLogger_found reg name :
  (removeLogger name reg).1 = true <-> is_Some (reg !! name).
Proof. unfold removeLogger. cbn. apply bool_decide_eq_true. Qed.

Lemma removeLogger_lookup reg name other :
  (removeLogger name reg).2 !! other =
  if decide (name = other) then None else reg !! other.
Proof. unfold removeLogger. cbn. apply lookup_delete. Qed.

(** C5. A name has at most one entry: registering [B] under a name that
    holds [A] leaves the registry as if only [B] had been registered, and a
    lookup of the name finds [B]. [removeLogger] then answers [true], and
    [false] when called again with no registration in between. *)
Theorem registry_keeps_last_registration reg name (A B : SsLoggerPtr) :
  let reg2 := addLogger name B (addLogger name A reg) in
  reg2 !! name = Some B /\
  reg2 = addLogger name B reg /\
  (removeLogger name reg2).1 = true /\
  (removeLogger name reg2).2 !! name = None /\
  (removeLogger name (removeLogger name reg2).2).1 = false.
Proof.
  intros reg2. unfold reg2, addLogger, removeLogger. cbn.
  rewrite insert_insert_eq, lookup_insert_eq, lookup_delete_eq.
  split; [reflexivity|]. split; [reflexivity|]. split.
  { apply bool_decide_eq_true. eauto. }
  split; [reflexivity|].
  apply bool_decide_eq_false. intros [x Hx]. discriminate Hx.
Qed.

End RegistryFacts.

(** A registry keyed by strings, with numbered instances. *)
Lemma registry_keeps_last_registration_witness :
  addLogger "x" 2 (addLogger "x" 1 (∅ : gmap string nat)) !! "x" = Some 2 /\
  (removeLogger "x" (addLogger "x" 2 (addLogger "x" 1 (∅ : gmap string nat)))).1
    = true.
Proof.
  pose proof (registry_keeps_last_registration (∅ : gmap string nat) "x" 1 2)
    as [Hl [_ [Hr _]]].
  split; [exact Hl | exact Hr].
Defined.

(** * Further properties of the code *)

(** ** Indexed access and the printer *)

(** X1. [VisitImpl<I>::visit] reaches exactly the indices below [I]: it
    returns, having applied the function once to the element at [idx], when
    [idx < I], and fails the assertion otherwise. *)
Theorem VisitImpl_applies_to_element I tuple idx p :
  I <= length tuple ->
  (forall q,
    VisitImpl I tuple idx p = Done q <->
    idx < I /\ exists v, tuple !! idx = Some v /\ q = call p v) /\
  (forall f, VisitImpl I tuple idx p = Fault f <-> I <= idx /\ f = AssertFailed).
Proof.
  intros HI.
  destruct (Nat.lt_ge_cases idx I) as [Hlt|Hge].
  - destruct (lookup_lt_is_Some_2 tuple idx ltac:(lia)) as [v Hv].
    rewrite (VisitImpl_lt I tuple idx p v HI Hlt Hv). split.
    + intros q. split.
      * intros [= <-]. split; [exact Hlt|]. eauto.
      * intros [_ [v' [Hv' ->]]]. congruence.
    + intros f. split; [discriminate | intros [? _]; lia].
  - rewrite (VisitImpl_ge I tuple idx p Hge). split.
    + intros q. split; [discriminate | intros [? _]; lia].
    + intros f. split.
      * intros [= <-]. auto.
      * intros [_ ->]. reflexivity.
Qed.

(** The whole chain of a three-element tuple, asked for its second
    element. *)
Lemma VisitImpl_applies_to_element_witness :
  3 <= length [AInt 1; AStr "b"; AInt 3] /\
  VisitImpl 3 [AInt 1; AStr "b"; AInt 3] 1 (mk_printer stringstream 0%Z) =
  Done (call (mk_printer stringstream 0%Z) (AStr "b")).
Proof.
  split; [cbn; lia|].
  apply (VisitImpl_applies_to_element 3 [AInt 1; AStr "b"; AInt 3] 1
           (mk_printer stringstream 0%Z)); [cbn; lia|].
  split; [lia|]. exists (AStr "b"). split; reflexivity.
Defined.

Lemma call_all_settled p vs :
  _defaultFlags p = 0%Z ->
  buf (_output (call_all p vs)) =
    buf (_output p) ++ concat (map (show (flags (_output p))) vs) /\
  flags (_output (call_all p vs)) = flags (_output p) /\
  _defaultFlags (call_all p vs) = 0%Z.
Proof.
  revert p. induction vs as [|v vs IH]; intros p Hd; cbn.
  - rewrite app_nil_r. auto.
  - assert (call p v = {| _output := put (_output p) v; _defaultFlags := 0%Z |})
      as E by (unfold call; rewrite Hd; cbn; now rewrite <- Hd).
    unfold call_all in IH. rewrite E.
    destruct (IH {| _output := put (_output p) v; _defaultFlags := 0%Z |})
      as [Hb [Hf Hz]]; [reflexivity|].
    rewrite Hb, Hf, Hz. cbn. rewrite <- app_assoc. auto.
Qed.

Lemma call_all_cons p v vs :
  buf (_output (call_all p (v :: vs))) =
    buf (_output p) ++ show (flags (_output p)) v ++
    concat (map (show (Z.lor (flags (_output p)) (_defaultFlags p))) vs) /\
  flags (_output (call_all p (v :: vs))) =
    Z.lor (flags (_output p)) (_defaultFlags p) /\
  _defaultFlags (call_all p (v :: vs)) = 0%Z.
Proof.
  unfold call_all. cbn [fold_left].
  assert (_defaultFlags (call p v) = 0%Z /\
          flags (_output (call p v)) =
            Z.lor (flags (_output p)) (_defaultFlags p) /\
          buf (_output (call p v)) =
            buf (_output p) ++ show (flags (_output p)) v) as [Hz [Hf Hb]].
  { unfold call. destruct (Z.eqb_spec (_defaultFlags p) 0) as [E|E]; cbn.
    - rewrite E, Z.lor_0_r. auto.
    - auto. }
  destruct (call_all_settled (call p v) vs Hz) as [Hb' [Hf' Hz']].
  unfold call_all in *. rewrite Hb', Hf', Hz', Hb, Hf, <- app_assoc. auto.
Qed.

(** X2. A flag stored in the printer does not reach the value printed
    next: the first value of a sequence is written under the stream's own
    flags, and the stored flags are in force for every later value, not for
    one. After the first call the printer stores no flag. *)
Theorem stored_flags_apply_after_first_value p v vs :
  buf (_output (call_all p (v :: vs))) =
    buf (_output p) ++ show (flags (_output p)) v ++
    concat (map (show (Z.lor (flags (_output p)) (_defaultFlags p))) vs) /\
  flags (_output (call_all p (v :: vs))) =
    Z.lor (flags (_output p)) (_defaultFlags p) /\
  _defaultFlags (call_all p (v :: vs)) = 0%Z.
Proof.
  assert (_defaultFlags (call p v) = 0%Z) as Hz
    by (unfold call; destruct (_defaultFlags p =? 0)%Z eqn:E; cbn;
        [now apply Z.eqb_eq in E | reflexivity]).
  destruct (call_all_settled (call p v) vs Hz) as [Hb [Hf Hz']].
  change (call_all p (v :: vs)) with (call_all (call p v) vs).
  rewrite Hb, Hf, Hz'. unfold call.
  destruct (Z.eqb_spec (_defaultFlags p) 0) as [E|E]; cbn.
  - rewrite E, Z.lor_0_r, <- app_assoc. auto.
  - rewrite <- app_assoc. auto.
Qed.

Lemma show_dec_bit_ints f zs :
  Z.testbit f 1 = true ->
  concat (map (show f) (map AInt zs)) =
  concat (map (signed_decimal (Z.testbit f 11)) zs).
Proof.
  intros Hb. induction zs as [|z zs IH]; [reflexivity|].
  cbn [map concat show]. rewrite IH. f_equal. apply (show_int_dec_bit f z Hb).
Qed.

(** X3. The printer can only add flags to its stream. On a stream whose
    [dec] flag is set, as on every fresh stream, integers printed through
    it come out in decimal whatever flags the printer stores: the first
    under the stream's flags, the others under the stream's flags joined
    with the stored ones, and a stored flag changes nothing but the [+]
    that [showpos] puts before a value that is not negative. *)
Theorem printer_keeps_integers_decimal p z zs :
  Z.testbit (flags (_output p)) 1 = true ->
  buf (_output (call_all p (map AInt (z :: zs)))) =
    buf (_output p) ++
    signed_decimal (Z.testbit (flags (_output p)) 11) z ++
    concat (map (signed_decimal
                   (Z.testbit (flags (_output p)) 11 ||
                    Z.testbit (_defaultFlags p) 11)) zs) /\
  Z.testbit (flags (_output (call_all p (map AInt (z :: zs))))) 1 = true.
Proof.
  intros Hb. cbn [map].
  destruct (call_all_cons p (AInt z) (map AInt zs)) as [Hbuf [Hf _]].
  assert (Z.testbit (Z.lor (flags (_output p)) (_defaultFlags p)) 1 = true)
    as Hb' by (rewrite Z.lor_spec, Hb; reflexivity).
  rewrite Hbuf, Hf. split; [|exact Hb'].
  rewrite (show_dec_bit_ints _ zs Hb'), Z.lor_spec. cbn [show].
  now rewrite (show_int_dec_bit _ z Hb).
Qed.

(** On a fresh stream 255 and 16 are written as ["25516"] by a printer
    that stores [hex], and as ["255+16"] by one that stores [showpos]. *)
Lemma printer_keeps_integers_decimal_witness :
  (Z.testbit (flags (_output (mk_printer stringstream ios_hex))) 1 = true /\
   buf (_output (call_all (mk_printer stringstream ios_hex)
                   (map AInt [255; 16]%Z))) =
   list_ascii_of_string "25516") /\
  buf (_output (call_all (mk_printer stringstream ios_showpos)
                  (map AInt [255; 16]%Z))) =
  list_ascii_of_string "255+16".
Proof.
  split; [split; [reflexivity|] |].
  - apply (printer_keeps_integers_decimal
             (mk_printer stringstream ios_hex) 255%Z [16]%Z).
    reflexivity.
  - apply (printer_keeps_integers_decimal
             (mk_printer stringstream ios_showpos) 255%Z [16]%Z).
    reflexivity.
Defined.

(** ** The skip loop *)

Lemma skip_alnum_run fmt fuel i :
  S i <= strlen fmt -> strlen fmt - S i <= fuel ->
  exists j, skip_alnum fuel fmt i = Done j /\ S i <= j <= strlen fmt /\
    (forall k, S i <= k < j ->
      exists c, chars fmt !! k = Some c /\ isalnum c = true) /\
    (forall c, chars fmt !! j = Some c -> isalnum c = false).
Proof.
  revert i. induction fuel as [|fuel IH]; intros i Hi Hfuel.
  - assert (S i = strlen fmt) as E by lia.
    exists (S i). simpl. rewrite E, char_at_end.
    split; [reflexivity|]. split; [lia|]. split.
    + intros k Hk. lia.
    + intros c Hc. apply lookup_lt_Some in Hc. unfold strlen in E. lia.
  - simpl. destruct (char_at_total fmt (S i) Hi) as [c Hc]. rewrite Hc.
    cbn [obind]. destruct (isalnum c) eqn:Ha.
    + pose proof (char_at_alnum _ _ _ Hc Ha) as Hlt.
      destruct (char_at_Done _ _ _ Hc) as [Hl | [He _]]; [|lia].
      destruct (IH (S i)) as [j [Hj [Hb [Hrun Hstop]]]]; [lia | lia |].
      exists j. split; [exact Hj|]. split; [lia|]. split; [|exact Hstop].
      intros k Hk. destruct (Nat.eq_dec k (S i)) as [->|Hne].
      * eauto.
      * apply Hrun. lia.
    + exists (S i). split; [reflexivity|]. split; [lia|]. split.
      * intros k Hk. lia.
      * intros c' Hc'. rewrite (char_at_lookup _ _ _ Hc') in Hc.
        injection Hc as <-. exact Ha.
Qed.

(** X4. The loop that skips the conversion specifier, started with [i] on
    the character behind the [%], stops on the first later character that
    is not alphanumeric, the terminator at the latest: everything strictly
    between is alphanumeric. Started on the terminator it reads beyond
    it. *)
Theorem skip_stops_at_first_non_alnum fmt i :
  (S i <= strlen fmt ->
   exists j, skip_alnum (strlen fmt) fmt i = Done j /\ i < j <= strlen fmt /\
     (forall k, i < k < j ->
       exists c, chars fmt !! k = Some c /\ isalnum c = true) /\
     (forall c, chars fmt !! j = Some c -> isalnum c = false)) /\
  (strlen fmt < S i -> skip_alnum (strlen fmt) fmt i = Fault ReadPastEnd).
Proof.
  split.
  - intros Hi.
    destruct (skip_alnum_run fmt (strlen fmt) i Hi) as [j [Hj [Hb [Hr Hs]]]];
      [lia|].
    exists j. split; [exact Hj|]. split; [lia|]. split; [|exact Hs].
    intros k Hk. apply Hr. lia.
  - apply skip_alnum_past.
Qed.

(** In ["%lld!"] the loop started on the first [l] stops on the [!]. *)
Lemma skip_stops_at_first_non_alnum_witness :
  skip_alnum (strlen "%lld!") "%lld!" 1 = Done 4 /\
  skip_alnum (strlen "%d") "%d" 2 = Fault ReadPastEnd.
Proof.
  destruct (skip_stops_at_first_non_alnum "%lld!" 1) as [H _].
  destruct (skip_stops_at_first_non_alnum "%d" 2) as [_ H'].
  split; [|apply H'; cbn; lia].
  destruct H as [j [Hj _]]; [cbn; lia|].
  rewrite Hj. f_equal.
  assert (skip_alnum (strlen "%lld!") "%lld!" 1 = Done 4) as E by reflexivity.
  congruence.
Defined.

(** ** [format] as a recursion over the format string *)

Lemma render_stop cs args p :
  (forall c r, cs = c :: r -> isalnum c = false) ->
  render cs args p true = render cs args p false.
Proof.
  intros H. destruct cs as [|c r]; [reflexivity|].
  cbn. rewrite (H c r eq_refl). reflexivity.
Qed.

Lemma skip_render fmt fuel i j args p :
  skip_alnum fuel fmt i = Done j ->
  render (drop (S i) (chars fmt)) args p true =
  render (drop j (chars fmt)) args p false.
Proof.
  revert i. induction fuel as [|fuel IH]; intros i; simpl;
    destruct (char_at fmt (S i)) as [c|] eqn:Hc; cbn [obind];
    try discriminate; destruct (isalnum c) eqn:Ha; try discriminate.
  - intros [= <-]. apply render_stop. intros c' r E.
    destruct (chars fmt !! S i) as [d|] eqn:El.
    + rewrite (drop_S _ _ _ El) in E. injection E as <- _.
      rewrite (char_at_lookup _ _ _ El) in Hc. now injection Hc as <-.
    + apply lookup_ge_None_1 in El. rewrite drop_ge in E by lia. discriminate.
  - intros Hj. rewrite <- (IH _ Hj).
    destruct (char_at_Done _ _ _ Hc) as [Hl | [_ ->]].
    + rewrite (drop_S _ _ _ Hl). cbn. rewrite Ha. reflexivity.
    + rewrite isalnum_NUL in Ha. discriminate.
  - intros [= <-]. apply render_stop. intros c' r E.
    destruct (chars fmt !! S i) as [d|] eqn:El.
    + rewrite (drop_S _ _ _ El) in E. injection E as <- _.
      rewrite (char_at_lookup _ _ _ El) in Hc. now injection Hc as <-.
    + apply lookup_ge_None_1 in El. rewrite drop_ge in E by lia. discriminate.
Qed.

Lemma output_consume_skip fmt tuple st v :
  tuple !! index st = Some v -> S (pos st) <= strlen fmt ->
  exists j, skip_alnum (strlen fmt) fmt (pos st) = Done j /\ S (pos st) <= j /\
    output fmt tuple st =
    Done {| printer := {| _output := _output (call (printer st) v);
                          _defaultFlags := _defaultFlags (printer st) |};
            index := S (index st); pos := j - 1 |}.
Proof.
  intros Hv Hp. unfold output.
  pose proof (lookup_lt_Some _ _ _ Hv) as Hlt.
  destruct (Nat.ltb_spec (index st) (length tuple)); [|lia].
  rewrite (visit_lt _ _ _ _ Hv). cbn [obind].
  destruct (skip_alnum_Done fmt (strlen fmt) (pos st)) as [j [Hj Hb]];
    [lia | lia |].
  exists j. split; [exact Hj|]. split; [lia|]. rewrite Hj. reflexivity.
Qed.

Lemma run_render fmt tuple fuel st :
  strlen fmt - pos st <= fuel ->
  (let! s := run fmt tuple fuel st in Done (printer s)) =
  render (drop (pos st) (chars fmt)) (drop (index st) tuple) (printer st) false.
Proof.
  revert st. induction fuel as [|fuel IH]; intros st Hf.
  { rewrite run_done by lia. rewrite drop_ge by (unfold strlen in *; lia).
    reflexivity. }
  destruct (Nat.lt_ge_cases (pos st) (strlen fmt)) as [Hp|Hp].
  2:{ rewrite run_done by lia. rewrite drop_ge by (unfold strlen in *; lia).
      reflexivity. }
  destruct (lookup_lt_is_Some_2 (chars fmt) (pos st) Hp) as [c Hc].
  rewrite (drop_S _ _ _ Hc). cbn [render andb].
  destruct (Ascii.eqb_spec c percent) as [->|Hne]; cbn [negb].
  2:{ rewrite (run_step _ _ _ _ _ Hp (step_literal _ tuple _ _ Hc Hne)).
      rewrite IH by (cbn; lia). reflexivity. }
  destruct (chars fmt !! S (pos st)) as [c1|] eqn:Hc1.
  - rewrite (drop_S _ _ _ Hc1).
    destruct (Ascii.eqb_spec c1 percent) as [->|Hne1].
    { rewrite (run_step _ _ _ _ _ Hp (step_escape _ tuple _ Hc Hc1)).
      rewrite IH by (cbn; lia). reflexivity. }
    pose proof (lookup_lt_Some _ _ _ Hc1) as Hlt1. fold (strlen fmt) in Hlt1.
    pose proof (step_substitution fmt tuple st c1 Hc
                  (char_at_lookup _ _ _ Hc1) Hne1) as Hs.
    cbn zeta in Hs.
    destruct (tuple !! index st) as [v|] eqn:Hv.
    + rewrite (drop_S _ _ _ Hv).
      destruct (Ascii.eqb c1 "x"%char).
      * destruct (output_consume_skip fmt tuple
                    (set_pos (case_x st) (S (pos (case_x st)))) v)
          as [j [Hj [Hle Ho]]]; [exact Hv | cbn; lia |].
        rewrite Ho in Hs. cbn [obind] in Hs.
        rewrite (run_step _ _ _ _ _ Hp Hs).
        rewrite IH by (cbn in *; lia). cbn in *.
        replace (S (j - 1)) with j by lia.
        symmetry. apply (skip_render fmt _ _ _ _ _ Hj).
      * destruct (output_consume_skip fmt tuple (set_pos st (S (pos st))) v)
          as [j [Hj [Hle Ho]]]; [exact Hv | cbn; lia |].
        rewrite Ho in Hs. cbn [obind] in Hs.
        rewrite (run_step _ _ _ _ _ Hp Hs).
        rewrite IH by (cbn in *; lia). cbn in *.
        replace (S (j - 1)) with j by lia.
        symmetry. apply (skip_render fmt _ _ _ _ _ Hj).
    + pose proof (lookup_ge_None_1 _ _ Hv) as Hge.
      rewrite (drop_ge tuple) by lia.
      destruct (Ascii.eqb c1 "x"%char);
        rewrite output_exhausted in Hs by (cbn; lia);
        cbn [obind] in Hs; rewrite (run_step _ _ _ _ _ Hp Hs);
        rewrite IH by (cbn; lia); cbn;
        rewrite (drop_ge tuple) by lia; reflexivity.
  - pose proof (lookup_ge_None_1 _ _ Hc1) as Hend.
    assert (S (pos st) = strlen fmt) as He by (unfold strlen in *; lia).
    rewrite (drop_ge (chars fmt)) by lia.
    assert (char_at fmt (S (pos st)) = Done NUL) as Hn
      by (rewrite He; apply char_at_end).
    pose proof (step_substitution fmt tuple st NUL Hc Hn ltac:(discriminate))
      as Hs.
    cbn zeta in Hs. change (Ascii.eqb NUL "x"%char) with false in Hs.
    cbn iota in Hs.
    destruct (tuple !! index st) as [v|] eqn:Hv.
    + rewrite (drop_S _ _ _ Hv).
      rewrite output_past in Hs
        by (cbn; first [apply (lookup_lt_Some _ _ _ Hv) | lia]).
      cbn [obind] in Hs. rewrite (run_step_fault _ _ _ _ _ Hp Hs). reflexivity.
    + pose proof (lookup_ge_None_1 _ _ Hv) as Hge.
      rewrite (drop_ge tuple) by lia.
      rewrite output_exhausted in Hs by (cbn; lia).
      cbn [obind] in Hs. rewrite (run_step _ _ _ _ _ Hp Hs).
      rewrite run_done by (cbn; lia). reflexivity.
Qed.

Lemma format_render fmt tuple :
  format fmt tuple =
  let! p := render (chars fmt) tuple (new_printer stringstream) false in
  Done (str (_output p)).
Proof.
  pose proof (run_render fmt tuple (strlen fmt) init ltac:(cbn; lia)) as H.
  change (drop (pos init) (chars fmt)) with (chars fmt) in H.
  change (drop (index init) tuple) with tuple in H.
  change (printer init) with (new_printer stringstream) in H.
  rewrite <- H. unfold format.
  destruct (run fmt tuple (strlen fmt) init); reflexivity.
Qed.

(** X5. [format] computes what the recursion [render] computes over the
    characters of the format string and the argument list, started on a
    fresh stream: the same text when it returns, the same fault when it
    does not. *)
Theorem format_is_render fmt tuple :
  format fmt tuple =
  let! p := render (chars fmt) tuple (new_printer stringstream) false in
  Done (str (_output p)).
Proof.
  unfold format.
  pose proof (run_render fmt tuple (strlen fmt) init) as H.
  change (render (drop (pos init) (chars fmt)) (drop (index init) tuple)
            (printer init) false)
    with (render (chars fmt) tuple (new_printer stringstream) false) in H.
  rewrite <- H by (cbn; lia).
  destruct (run fmt tuple (strlen fmt) init) as [st|f]; reflexivity.
Qed.

Lemma render_no_arguments n cs p :
  length cs <= n ->
  exists p', render cs [] p false = Done p' /\
    buf (_output p') = buf (_output p) ++ plain cs.
Proof.
  revert cs p. induction n as [|n IH]; intros cs p Hn.
  { destruct cs; [|cbn in Hn; lia]. exists p. cbn. now rewrite app_nil_r. }
  destruct cs as [|c r]; [exists p; cbn; now rewrite app_nil_r|].
  cbn in Hn. cbn [render plain andb].
  destruct (negb (Ascii.eqb c percent)).
  { destruct (IH r (pwrite p [c])) as [p' [Hr Hb]]; [lia|].
    exists p'. split; [exact Hr|]. rewrite Hb. cbn. now rewrite <- app_assoc. }
  destruct r as [|c1 r'].
  { eexists. split; [reflexivity|]. unfold call.
    destruct (_defaultFlags p =? 0)%Z; reflexivity. }
  cbn in Hn. destruct (Ascii.eqb c1 percent).
  { destruct (IH r' (pwrite p [percent])) as [p' [Hr Hb]]; [lia|].
    exists p'. split; [exact Hr|]. rewrite Hb. cbn. now rewrite <- app_assoc. }
  unfold hex_prefix. destruct (Ascii.eqb c1 "x"%char).
  - destruct (IH r' (call (setFlag (pwrite p (list_ascii_of_string "0x")) ios_hex)
                       (AChar percent))) as [p' [Hr Hb]]; [lia|].
    exists p'. split; [exact Hr|]. rewrite Hb. cbn. now rewrite <- !app_assoc.
  - destruct (IH r' (call p (AChar percent))) as [p' [Hr Hb]]; [lia|].
    exists p'. split; [exact Hr|]. rewrite Hb. unfold call.
    destruct (_defaultFlags p =? 0)%Z; cbn; now rewrite <- !app_assoc.
Qed.

(** X6. Called without arguments, [format] always returns, and the text is
    the format string with every escape [%%] reduced to [%] and, at every
    other [%], the character behind it removed (and [0x] put in front of
    the [%] when that character is [x]): ["100% done"] becomes
    ["100%done"]. *)
Theorem format_without_arguments fmt :
  format fmt [] = Done (string_of_list_ascii (plain (chars fmt))) /\
  format "100% done" [] = Done "100%done"%string.
Proof.
  split; [|reflexivity].
  rewrite format_render.
  destruct (render_no_arguments (length (chars fmt)) (chars fmt)
              (new_printer stringstream) (le_n _)) as [p' [-> Hb]].
  cbn [obind]. unfold str. rewrite Hb. reflexivity.
Qed.

Lemma render_never_asserts_or_loops n cs args p s f :
  length cs <= n -> render cs args p s = Fault f -> f = ReadPastEnd.
Proof.
  revert cs args p s. induction n as [|n IH]; intros cs args p s Hn.
  { destruct cs; [discriminate | cbn in Hn; lia]. }
  destruct cs as [|c r]; [discriminate|]. cbn in Hn. cbn [render].
  destruct (s && isalnum c); [apply IH; lia|].
  destruct (negb (Ascii.eqb c percent)); [apply IH; lia|].
  destruct r as [|c1 r'].
  { destruct args; [discriminate | now intros [= <-]]. }
  cbn in Hn. destruct (Ascii.eqb c1 percent); [apply IH; lia|].
  destruct args; apply IH; lia.
Qed.

Lemma count_alnum c r :
  isalnum c = true ->
  count_substitutions (c :: r) = count_substitutions r /\
  ends_in_substitution (c :: r) = ends_in_substitution r.
Proof.
  intros Ha. cbn. destruct (Ascii.eqb_spec c percent) as [->|]; [|auto].
  rewrite isalnum_percent in Ha. discriminate.
Qed.

Lemma render_reads_past_end n cs args p s :
  length cs <= n ->
  render cs args p s = Fault ReadPastEnd <->
  ends_in_substitution cs = true /\ count_substitutions cs <= length args.
Proof.
  revert cs args p s. induction n as [|n IH]; intros cs args p s Hn.
  { destruct cs; [|cbn in Hn; lia]. cbn. split; [discriminate|].
    intros [? _]. discriminate. }
  destruct cs as [|c r].
  { cbn. split; [discriminate|]. intros [? _]. discriminate. }
  cbn in Hn. cbn [render].
  destruct (s && isalnum c) eqn:Esk.
  { apply andb_true_iff in Esk as [_ Ha].
    destruct (count_alnum c r Ha) as [-> ->]. apply IH. lia. }
  cbn [count_substitutions ends_in_substitution].
  destruct (Ascii.eqb c percent); cbn [negb]; [|apply IH; lia].
  destruct r as [|c1 r'].
  { destruct args as [|v args]; cbn.
    - split; [discriminate | intros [_ ?]; lia].
    - split; [intros _; split; [reflexivity | lia] | reflexivity]. }
  cbn in Hn. destruct (Ascii.eqb c1 percent); [apply IH; lia|].
  destruct args as [|v args'].
  - split.
    + intros Hr.
      destruct (render_no_arguments (length r') r'
                  (call (if Ascii.eqb c1 "x"%char
                         then setFlag (pwrite p (list_ascii_of_string "0x")) ios_hex
                         else p) (AChar percent)) (le_n _)) as [p' [E _]].
      rewrite E in Hr. discriminate.
    + intros [_ ?]. cbn in *. lia.
  - rewrite IH by lia. cbn [length]. split; intros [? ?]; split; auto; lia.
Qed.

(** X7. [format] reads beyond the terminator of the format string exactly
    when the string ends in a [%] that begins a substitution and the call
    passes at least as many arguments as there are substitution points. It
    has no other way to fail; in every other case it returns a text. *)
Theorem format_faults_exactly_on_trailing_substitution fmt tuple :
  (format fmt tuple = Fault ReadPastEnd <->
   ends_in_substitution (chars fmt) = true /\
   substitution_points fmt <= length tuple) /\
  (forall f, format fmt tuple = Fault f -> f = ReadPastEnd) /\
  ((exists out, format fmt tuple = Done out) <->
   ~ (ends_in_substitution (chars fmt) = true /\
      substitution_points fmt <= length tuple)).
Proof.
  rewrite format_render.
  pose proof (render_reads_past_end (length (chars fmt)) (chars fmt) tuple
                (new_printer stringstream) false (le_n _)) as Hiff.
  pose proof (render_never_asserts_or_loops (length (chars fmt)) (chars fmt)
                tuple (new_printer stringstream) false) as Honly.
  unfold substitution_points.
  destruct (render (chars fmt) tuple (new_printer stringstream) false)
    as [p|f] eqn:E; cbn [obind].
  - split; [|split].
    + rewrite <- Hiff. split; discriminate.
    + discriminate.
    + split; [|eauto]. intros _ H. apply Hiff in H. discriminate.
  - assert (f = ReadPastEnd) as -> by (apply (Honly f (le_n _)); reflexivity).
    split; [|split].
    + rewrite <- Hiff. split; reflexivity.
    + now intros f [= <-].
    + split; [intros [out Ho]; discriminate|].
      intros H. exfalso. apply H. now apply Hiff.
Qed.

(** ["load: 50%"] with one argument ends in a substitution that still has
    an argument; without arguments the same string is rendered. *)
Lemma format_faults_exactly_on_trailing_substitution_witness :
  format "load: 50%" [AInt 1] = Fault ReadPastEnd /\
  exists out, format "load: 50%" [] = Done out.
Proof.
  destruct (format_faults_exactly_on_trailing_substitution "load: 50%" [AInt 1])
    as [H1 _].
  destruct (format_faults_exactly_on_trailing_substitution "load: 50%" [])
    as [_ [_ H2]].
  split.
  - apply H1. split; [reflexivity | cbn; lia].
  - apply H2. intros [_ H]. cbn in H. lia.
Defined.

(** ** The levels *)

(** X8. The values of [LoggerLevel] fit its underlying [uint8_t], grow
    strictly in the order verbose, debug, info, warning, error, emergency,
    and are pairwise different, so comparing the underlying values decides
    which level it is. The four levels between the ends are single bits,
    and emergency has every bit of every level. *)
Theorem level_values_are_ordered :
  (forall a, (0 <= level_value a <= 255)%Z) /\
  (level_value LL_VERBOSE < level_value LL_DEBUG < level_value LL_INFO)%Z /\
  (level_value LL_INFO < level_value LL_WARNING < level_value LL_ERROR)%Z /\
  (level_value LL_ERROR < level_value LL_EMERGENCY)%Z /\
  (forall a b, level_eqb a b = true <-> a = b) /\
  (forall a,
    Z.land (level_value a) (level_value LL_EMERGENCY) = level_value a) /\
  (forall a b, a <> b -> a <> LL_EMERGENCY -> b <> LL_EMERGENCY ->
    Z.land (level_value a) (level_value b) = 0%Z).
Proof.
  split; [intros []; cbn; lia|].
  split; [cbn; lia|]. split; [cbn; lia|]. split; [cbn; lia|].
  split; [intros a b; destruct a, b; cbn; split; intros E;
          try reflexivity; discriminate E|].
  split; [intros []; reflexivity|].
  intros a b Hab Ha Hb. destruct a, b; try reflexivity; contradiction.
Qed.

Lemma level_values_are_ordered_witness :
  level_eqb LL_WARNING LL_WARNING = true /\
  Z.land (level_value LL_INFO) (level_value LL_ERROR) = 0%Z.
Proof.
  destruct level_values_are_ordered as [_ [_ [_ [_ [Heq [_ Hdis]]]]]].
  split.
  - apply (Heq LL_WARNING LL_WARNING). reflexivity.
  - apply (Hdis LL_INFO LL_ERROR); discriminate.
Defined.

(** ** [ss_core.cc] *)

Lemma flush_facts s :
  device (flush s) = sent s /\ buf (os (flush s)) = [] /\
  flags (os (flush s)) = flags (os s).
Proof. unfold flush, sent. cbn. auto. Qed.

Lemma insert_facts s v :
  sent (insert s v) = sent s ++ show (flags (os s)) v /\
  flags (os (insert s v)) = flags (os s) /\
  (Z.testbit (flags (os s)) 13 = true -> buf (os (insert s v)) = []).
Proof.
  unfold insert, sent, flush. destruct (Z.testbit (flags (os s)) 13); cbn.
  - rewrite app_nil_r, app_assoc. auto.
  - rewrite app_assoc. split; [reflexivity|]. split; [reflexivity|].
    discriminate.
Qed.

Lemma endl_facts s :
  device (endl s) = sent s ++ [newline] /\ buf (os (endl s)) = [] /\
  flags (os (endl s)) = flags (os s).
Proof.
  unfold endl. destruct (flush_facts (insert s (AChar newline))) as [Hd [Hb Hf]].
  destruct (insert_facts s (AChar newline)) as [Hs [Hf' _]].
  rewrite Hd, Hb, Hf, Hs, Hf'. auto.
Qed.

Lemma endl_sent s : sent (endl s) = sent s ++ [newline].
Proof.
  destruct (endl_facts s) as [Hd [Hb _]]. unfold sent at 1.
  now rewrite Hd, Hb, app_nil_r.
Qed.

Lemma insert_sent s v : sent (insert s v) = sent s ++ show (flags (os s)) v.
Proof. apply insert_facts. Qed.

Lemma insert_flags s v : flags (os (insert s v)) = flags (os s).
Proof. apply insert_facts. Qed.

Lemma endl_device s : device (endl s) = sent s ++ [newline].
Proof. apply endl_facts. Qed.

Lemma endl_buf s : buf (os (endl s)) = [].
Proof. apply endl_facts. Qed.

Lemma endl_flags s : flags (os (endl s)) = flags (os s).
Proof. apply endl_facts. Qed.

(** X9. [printShadowSocksHeader] keeps what the stream had been given
    before, adds the header, four lines that name the module and the
    version, and leaves nothing in the buffer: with the last [std::endl]
    everything, the earlier output included, has reached the device. The
    stream's flags are as before. *)
Theorem header_is_appended_and_flushed module version s :
  device (printShadowSocksHeader module version s) =
    sent s ++ header_text module version /\
  buf (os (printShadowSocksHeader module version s)) = [] /\
  flags (os (printShadowSocksHeader module version s)) = flags (os s).
Proof.
  unfold printShadowSocksHeader. cbv zeta.
  split; [|split].
  - rewrite endl_device.
    repeat first [rewrite endl_sent | rewrite insert_sent].
    unfold header_text. cbv beta iota delta [show].
    rewrite <- !app_assoc. reflexivity.
  - apply endl_buf.
  - repeat first [rewrite endl_flags | rewrite insert_flags]. reflexivity.
Qed.

Lemma digits_no_gt u c :
  In c (list_ascii_of_string (DecimalString.NilEmpty.string_of_uint u)) ->
  c <> ">"%char.
Proof.
  induction u; cbn; intros H;
    try contradiction; destruct H as [<-|H]; try discriminate; auto.
Qed.

Lemma decimal_no_gt z : ~ In ">"%char (decimal z).
Proof.
  unfold decimal. intros H.
  assert (forall u c,
    In c (list_ascii_of_string (DecimalString.NilZero.string_of_uint u)) ->
    c <> ">"%char) as Hu.
  { intros u c. destruct u; try apply (digits_no_gt _ c).
    cbn. intros [<-|[]]. discriminate. }
  destruct (Z.to_int z) as [u|u]; cbn in H.
  - now apply (Hu u _ H).
  - destruct H as [H|H]; [discriminate|]. now apply (Hu u _ H).
Qed.

Lemma int_of_string_of_int d :
  option_map Z.of_int
    (DecimalString.NilZero.int_of_string
       (DecimalString.NilZero.string_of_int d)) = Some (Z.of_int d).
Proof.
  destruct d as [u|u]; destruct u;
    try (rewrite DecimalString.NilZero.isi by discriminate; reflexivity).
  - rewrite DecimalString.NilZero.isi_posnil. reflexivity.
  - rewrite DecimalString.NilZero.isi_negnil. reflexivity.
Qed.

Lemma decimal_inj z1 z2 : decimal z1 = decimal z2 -> z1 = z2.
Proof.
  unfold decimal. intros H.
  apply (f_equal string_of_list_ascii) in H.
  rewrite !string_of_list_ascii_of_string in H.
  pose proof (int_of_string_of_int (Z.to_int z1)) as H1.
  pose proof (int_of_string_of_int (Z.to_int z2)) as H2.
  rewrite H, H2 in H1. injection H1 as E. rewrite !DecimalZ.of_to in E.
  congruence.
Qed.

Lemma split_at_mark {A : Type} (x : A) (a b r1 r2 : list A) :
  ~ In x a -> ~ In x b -> a ++ x :: r1 = b ++ x :: r2 -> a = b /\ r1 = r2.
Proof.
  revert b. induction a as [|y a IH]; intros b Ha Hb E.
  - destruct b as [|z b]; cbn in E.
    + injection E as ->. auto.
    + injection E as <- _. exfalso. apply Hb. now left.
  - destruct b as [|z b]; cbn in E.
    + injection E as -> _. exfalso. apply Ha. now left.
    + injection E as -> E.
      destruct (IH b) as [-> ->]; auto.
      * intros H. apply Ha. now right.
      * intros H. apply Hb. now right.
Qed.

Lemma getLastError_chars errno strerror :
  list_ascii_of_string (getLastError errno strerror) =
  list_ascii_of_string "Error<" ++ decimal errno ++
  list_ascii_of_string ">: " ++ list_ascii_of_string (strerror errno).
Proof.
  unfold getLastError. cbv zeta. rewrite str_chars.
  unfold put, write. cbn [buf flags stringstream show].
  change (show_int (Z.lor ios_skipws ios_dec) errno) with (decimal errno).
  rewrite <- !app_assoc. reflexivity.
Qed.

(** X10. The text of [getLastError] is [Error<], the error number in
    decimal, [>: ] and the library's description of it. The number can be
    read back: two calls give the same text only for the same number and
    the same description. *)
Theorem last_error_text_determines_errno errno1 errno2 strerror1 strerror2 :
  list_ascii_of_string (getLastError errno1 strerror1) =
    list_ascii_of_string "Error<" ++ decimal errno1 ++
    list_ascii_of_string ">: " ++ list_ascii_of_string (strerror1 errno1) /\
  (getLastError errno1 strerror1 = getLastError errno2 strerror2 ->
   errno1 = errno2 /\ strerror1 errno1 = strerror2 errno2).
Proof.
  split; [apply getLastError_chars|].
  intros E. apply (f_equal list_ascii_of_string) in E.
  rewrite !getLastError_chars in E.
  apply app_inv_head in E.
  change (list_ascii_of_string ">: ") with ([">"%char] ++ list_ascii_of_string ": ") in E.
  rewrite <- !app_assoc in E. cbn [app] in E.
  apply split_at_mark in E; [|apply decimal_no_gt|apply decimal_no_gt].
  destruct E as [Ed Er]. split; [now apply decimal_inj|].
  apply app_inv_head in Er.
  apply (f_equal string_of_list_ascii) in Er.
  now rewrite !string_of_list_ascii_of_string in Er.
Qed.

(** Error 2, described by two libraries that agree on it. *)
Lemma last_error_text_determines_errno_witness :
  getLastError 2 sample_strerror =
    "Error<2>: No such file or directory"%string /\
  getLastError 2 sample_strerror =
    getLastError 2 (fun _ => "No such file or directory") /\
  2%Z = 2%Z /\
  sample_strerror 2 = "No such file or directory"%string.
Proof.
  split; [reflexivity|]. split; [reflexivity|].
  apply (last_error_text_determines_errno 2 2 sample_strerror
           (fun _ => "No such file or directory")).
  reflexivity.
Defined.

(** X11. [printLastError] hands to the device everything that was pending
    on [std::cout] and writes nothing to it; [std::cerr] receives the text
    of [getLastError], then [ <UserReason>: ] and the caller's message, with
    no line end of its own. When [unitbuf] is set on [std::cerr], as it is
    at start, nothing of it stays in the buffer. Both overloads behave
    alike. *)
Theorem last_error_goes_to_cerr errno strerror message w :
  let w' := printLastError errno strerror message w in
  device (cout w') = sent (cout w) /\ buf (os (cout w')) = [] /\
  sent (cerr w') =
    sent (cerr w) ++ list_ascii_of_string (getLastError errno strerror) ++
    list_ascii_of_string " <UserReason>: " ++ list_ascii_of_string message /\
  (Z.testbit (flags (os (cerr w))) 13 = true -> buf (os (cerr w')) = []) /\
  printLastError_cstr errno strerror message w = w'.
Proof.
  intros w'. unfold w', printLastError. cbv zeta. cbn [cout cerr].
  split; [apply flush_facts|]. split; [apply flush_facts|].
  split; [|split; [|reflexivity]].
  - rewrite !insert_sent. cbv beta iota delta [show].
    rewrite <- !app_assoc. reflexivity.
  - intros Hu. apply insert_facts. now rewrite !insert_flags.
Qed.

(** A failed bind: [std::cout] still holds a line, [std::cerr] is
    unbuffered. *)
Lemma last_error_goes_to_cerr_witness :
  Z.testbit (flags (os (cerr sample_streams))) 13 = true /\
  device (cout (printLastError 98 (fun _ => "Address already in use") "bind"
                  sample_streams)) = list_ascii_of_string "starting" /\
  buf (os (cerr (printLastError 98 (fun _ => "Address already in use") "bind"
                   sample_streams))) = [] /\
  device (cerr (printLastError 98 (fun _ => "Address already in use") "bind"
                  sample_streams)) =
    list_ascii_of_string
      "Error<98>: Address already in use <UserReason>: bind".
Proof.
  split; [reflexivity|].
  destruct (last_error_goes_to_cerr 98 (fun _ => "Address already in use")
              "bind" sample_streams) as [Hc [_ [_ [Hb _]]]].
  split; [exact Hc|]. split; [apply Hb; reflexivity | reflexivity].
Defined.

(** ** The selector macros *)

Lemma to_short_low_bits z b :
  (0 <= b < 16)%Z -> Z.testbit (to_short z) b = Z.testbit z b.
Proof.
  intros Hb.
  rewrite <- (Z.mod_pow2_bits_low (to_short z) 16 b) by lia.
  rewrite <- (Z.mod_pow2_bits_low z 16 b) by lia.
  f_equal. unfold to_short. change (2 ^ 16)%Z with 65536%Z.
  rewrite Zminus_mod_idemp_l. f_equal. lia.
Qed.

Lemma to_short_range z : (-32768 <= to_short z < 32768)%Z.
Proof.
  unfold to_short.
  pose proof (Z.mod_pos_bound (z + 32768) 65536 ltac:(lia)). lia.
Qed.

Lemma selector_add_all es v b :
  (0 <= b < 16)%Z ->
  Z.testbit (events (fold_left SELECTOR_VALUE_ADD es v)) b =
    Z.testbit (events v) b || existsb (fun e => Z.testbit e b) es /\
  fd (fold_left SELECTOR_VALUE_ADD es v) = fd v /\
  revents (fold_left SELECTOR_VALUE_ADD es v) = revents v.
Proof.
  intros Hb. revert v. induction es as [|e es IH]; intros v; cbn.
  - now rewrite orb_false_r.
  - destruct (IH (SELECTOR_VALUE_ADD v e)) as [Ht [Hf Hr]].
    rewrite Ht, Hf, Hr. cbn.
    rewrite (to_short_low_bits _ b Hb), Z.lor_spec, orb_assoc. auto.
Qed.

(** X12. A selector value made by [SELECTOR_VALUE_INIT] and then given
    events by [SELECTOR_VALUE_ADD], in any number and order, keeps its
    descriptor, and each of the sixteen bits of its [events] is set exactly
    when one of the added events has it: events accumulate, none is lost
    and none appears by itself. The stored value stays a [short]. *)
Theorem selector_events_accumulate s es b :
  (0 <= b < 16)%Z ->
  Z.testbit (events (fold_left SELECTOR_VALUE_ADD es (SELECTOR_VALUE_INIT s))) b
    = existsb (fun e => Z.testbit e b) es /\
  fd (fold_left SELECTOR_VALUE_ADD es (SELECTOR_VALUE_INIT s)) = s /\
  (-32768 <=
     events (fold_left SELECTOR_VALUE_ADD es (SELECTOR_VALUE_INIT s))
     < 32768)%Z.
Proof.
  intros Hb.
  destruct (selector_add_all es (SELECTOR_VALUE_INIT s) b Hb) as [Ht [Hf _]].
  split; [|split].
  - rewrite Ht. cbn. now rewrite Z.testbit_0_l.
  - exact Hf.
  - destruct es as [|e es] using rev_ind; [cbn; lia|].
    rewrite fold_left_app. cbn. apply to_short_range.
Qed.

(** A socket registered for input (bit 0) and output (bit 2), input
    twice. *)
Lemma selector_events_accumulate_witness :
  (0 <= 2 < 16)%Z /\
  Z.testbit
    (events (fold_left SELECTOR_VALUE_ADD [1; 4; 1]%Z (SELECTOR_VALUE_INIT 7)))
    2 = true /\
  events (fold_left SELECTOR_VALUE_ADD [1; 4; 1]%Z (SELECTOR_VALUE_INIT 7))
    = 5%Z.
Proof.
  split; [lia|]. split; [|reflexivity].
  destruct (selector_events_accumulate 7 [1; 4; 1]%Z 2 ltac:(lia)) as [H _].
  rewrite H. reflexivity.
Defined.

(** ** Literal text in front of a format string *)

Lemma prepend_pwrite b p cs : pwrite (prepend b p) cs = prepend b (pwrite p cs).
Proof. unfold pwrite, prepend, write. cbn. now rewrite app_assoc. Qed.

Lemma prepend_call b p v : call (prepend b p) v = prepend b (call p v).
Proof.
  unfold call, prepend, put, write, setf. cbn.
  destruct (_defaultFlags p =? 0)%Z; cbn; now rewrite app_assoc.
Qed.

Lemma render_prepend n b cs args p s :
  length cs <= n ->
  render cs args (prepend b p) s =
  let! q := render cs args p s in Done (prepend b q).
Proof.
  revert cs args p s. induction n as [|n IH]; intros cs args p s Hn.
  { destruct cs; [reflexivity | cbn in Hn; lia]. }
  destruct cs as [|c r]; [reflexivity|]. cbn in Hn. cbn [render].
  destruct (s && isalnum c); [apply IH; lia|].
  destruct (negb (Ascii.eqb c percent)).
  { rewrite prepend_pwrite. apply IH. lia. }
  destruct r as [|c1 r'].
  { destruct args; [|reflexivity]. cbn [obind]. now rewrite prepend_call. }
  cbn in Hn. destruct (Ascii.eqb c1 percent).
  { rewrite prepend_pwrite. apply IH. lia. }
  destruct (Ascii.eqb c1 "x"%char).
  - rewrite prepend_pwrite.
    change (setFlag (prepend b (pwrite p (list_ascii_of_string "0x"))) ios_hex)
      with (prepend b (setFlag (pwrite p (list_ascii_of_string "0x")) ios_hex)).
    destruct args as [|v args'].
    + rewrite prepend_call. apply IH. lia.
    + rewrite prepend_call.
      match goal with
      | |- render _ _ ?q _ = _ =>
          change q with
            (prepend b
               {| _output := _output (call (setFlag (pwrite p (list_ascii_of_string "0x")) ios_hex) v);
                  _defaultFlags := _defaultFlags (setFlag (pwrite p (list_ascii_of_string "0x")) ios_hex) |})
      end.
      apply IH. lia.
  - destruct args as [|v args'].
    + rewrite prepend_call. apply IH. lia.
    + rewrite prepend_call.
      match goal with
      | |- render _ _ ?q _ = _ =>
          change q with
            (prepend b {| _output := _output (call p v);
                          _defaultFlags := _defaultFlags p |})
      end.
      apply IH. lia.
Qed.

Lemma render_literal lit cs args p :
  ~ In percent lit ->
  render (lit ++ cs) args p false = render cs args (pwrite p lit) false.
Proof.
  revert p. induction lit as [|c lit IH]; intros p Hno.
  - cbn. destruct p as [[b f] d]. unfold pwrite, write. cbn.
    now rewrite app_nil_r.
  - cbn [app render andb].
    destruct (Ascii.eqb_spec c percent) as [->|Hne].
    { exfalso. apply Hno. now left. }
    cbn [negb]. rewrite IH by (intros H; apply Hno; now right).
    f_equal. unfold pwrite, write. cbn. now rewrite <- app_assoc.
Qed.

Lemma chars_app (a b : string) :
  chars (a ++ b)%string = chars a ++ chars b.
Proof.
  unfold chars. induction a as [|c a IH]; [reflexivity|].
  simpl. f_equal. exact IH.
Qed.

Lemma string_of_app (a b : list ascii) :
  string_of_list_ascii (a ++ b) =
  (string_of_list_ascii a ++ string_of_list_ascii b)%string.
Proof.
  induction a as [|c a IH]; [reflexivity|].
  change (String c (string_of_list_ascii (a ++ b)) =
          String c (string_of_list_ascii a ++ string_of_list_ascii b)%string).
  f_equal. exact IH.
Qed.

(** X13. Literal text in front of a format string is copied and changes
    nothing behind it: for a text without [%], formatting the text
    followed by [fmt] gives the text followed by what formatting [fmt]
    alone gives, and faults exactly when that does. *)
Theorem literal_prefix_is_copied literal fmt tuple :
  ~ In percent (chars literal) ->
  format (literal ++ fmt)%string tuple =
  with_prefix literal (format fmt tuple).
Proof.
  intros Hno. rewrite !format_render, chars_app.
  rewrite (render_literal _ _ _ _ Hno).
  assert (pwrite (new_printer stringstream) (chars literal) =
          prepend (chars literal) (new_printer stringstream)) as ->
    by (unfold pwrite, prepend, write; cbn; now rewrite app_nil_r).
  rewrite (render_prepend (length (chars fmt))) by lia.
  destruct (render (chars fmt) tuple (new_printer stringstream) false)
    as [q|f]; [|reflexivity].
  cbn [obind with_prefix]. f_equal. unfold str, prepend. cbn [buf _output].
  rewrite string_of_app. f_equal. apply string_of_list_ascii_of_string.
Qed.

(** A tag in front of a message with two substitutions. *)
Lemma literal_prefix_is_copied_witness :
  ~ In percent (chars "[net] ") /\
  format ("[net] " ++ "%s:%d")%string [AStr "host"; AInt 80] =
  with_prefix "[net] " (format "%s:%d" [AStr "host"; AInt 80]) /\
  format "[net] %s:%d" [AStr "host"; AInt 80] = Done "[net] host:80"%string.
Proof.
  assert (~ In percent (chars "[net] ")) as Hno.
  { cbn. intros H. repeat (destruct H as [H|H]; [discriminate H|]). exact H. }
  split; [exact Hno|]. split; [|reflexivity].
  apply (literal_prefix_is_copied "[net] " "%s:%d" _ Hno).
Defined.

(** ** How many arguments a call consumes *)

Lemma step_uses_up fmt tuple st st' :
  pos st < strlen fmt ->
  index st <= length tuple ->
  length tuple <= index st + points_from fmt (pos st) ->
  step fmt tuple st = Done st' ->
  index st' <= length tuple /\
  length tuple <= index st' + points_from fmt (pos st').
Proof.
  intros Hp Hle Hge Hs.
  destruct (lookup_lt_is_Some_2 (chars fmt) (pos st) Hp) as [c Hc].
  destruct (ascii_dec c percent) as [->|Hne].
  2:{ rewrite (step_literal _ _ _ _ Hc Hne) in Hs. injection Hs as <-.
      cbn [index pos set_pos ss_write].
      rewrite (points_from_literal _ _ c Hc Hne) in Hge. lia. }
  destruct (char_at_total fmt (S (pos st))) as [c1 Hc1]; [lia|].
  destruct (ascii_dec c1 percent) as [->|Hne1].
  { destruct (char_at_Done _ _ _ Hc1) as [Hl | [_ Hn]]; [|discriminate Hn].
    rewrite (step_escape _ _ _ Hc Hl) in Hs. injection Hs as <-.
      cbn [index pos set_pos ss_write].
    rewrite (points_from_escape _ _ Hc Hl) in Hge. lia. }
  rewrite (points_from_substitution _ _ Hc (not_escape _ _ _ Hc1 Hne1)) in Hge.
  destruct (Nat.lt_ge_cases (index st) (length tuple)) as [Hlt|Hex].
  - destruct (lookup_lt_is_Some_2 tuple (index st) Hlt) as [v Hv].
    destruct (char_at_Done _ _ _ Hc1) as [Hl | [He _]].
    + destruct (step_consume _ _ _ _ _ Hc Hl Hne1 Hv)
        as [st2 [Hs2 [_ [Hi [_ Hpt]]]]].
      rewrite Hs2 in Hs. injection Hs as <-. rewrite Hi, Hpt. lia.
    + rewrite (step_substitution _ _ _ _ Hc Hc1 Hne1) in Hs. cbn zeta in Hs.
      rewrite output_past in Hs; [discriminate | |];
        destruct (Ascii.eqb c1 "x"%char); cbn; lia.
  - destruct (step_exhausted _ _ _ _ Hc Hc1 Hne1 Hex)
      as [st2 [Hs2 [_ [Hi [Hq _]]]]].
    rewrite Hs2 in Hs. injection Hs as <-. rewrite Hi, Hq. lia.
Qed.

Lemma run_uses_up fmt tuple fuel st st' :
  strlen fmt - pos st <= fuel ->
  index st <= length tuple ->
  length tuple <= index st + points_from fmt (pos st) ->
  run fmt tuple fuel st = Done st' ->
  index st' = length tuple.
Proof.
  revert st. induction fuel as [|fuel IH]; intros st Hf Hle Hge Hr.
  - rewrite run_done in Hr by lia. injection Hr as <-.
    rewrite points_from_past in Hge by lia. lia.
  - destruct (Nat.lt_ge_cases (pos st) (strlen fmt)) as [Hp|Hp].
    2:{ rewrite run_done in Hr by lia. injection Hr as <-.
        rewrite points_from_past in Hge by lia. lia. }
    destruct (step fmt tuple st) as [st1|f] eqn:Hs.
    2:{ rewrite (run_step_fault _ _ _ _ _ Hp Hs) in Hr. discriminate. }
    rewrite (run_step _ _ _ _ _ Hp Hs) in Hr.
    destruct (step_progress _ _ _ _ Hp Hs) as [Hlt _].
    destruct (step_uses_up _ _ _ _ Hp Hle Hge Hs) as [Hle1 Hge1].
    apply (IH st1); [lia | exact Hle1 | exact Hge1 | exact Hr].
Qed.

(** X14. A call that returns has consumed as many arguments as the format
    string has substitution points, or all of them when there are fewer
    arguments than points: never more than it was given, and none is
    passed over while a substitution point is left. *)
Theorem consumed_is_the_smaller_count fmt tuple k :
  consumed fmt tuple = Done k ->
  k = Nat.min (substitution_points fmt) (length tuple).
Proof.
  unfold consumed.
  destruct (run fmt tuple (strlen fmt) init) as [st|] eqn:Hr; [|discriminate].
  cbn [obind]. intros [= <-].
  destruct (Nat.le_gt_cases (substitution_points fmt) (length tuple)) as [H|H].
  - rewrite Nat.min_l by exact H.
    apply (run_consumes fmt tuple (strlen fmt) init st);
      [cbn; lia | exact H | exact Hr].
  - rewrite Nat.min_r by lia.
    apply (run_uses_up fmt tuple (strlen fmt) init st);
      [cbn; lia | cbn; lia | | exact Hr].
    change (points_from fmt (pos init)) with (substitution_points fmt).
    cbn. lia.
Qed.

(** Three substitution points and two arguments. *)
Lemma consumed_is_the_smaller_count_witness :
  consumed "%s %s %s" [AStr "a"; AStr "b"] = Done 2 /\
  2 = Nat.min (substitution_points "%s %s %s") (length [AStr "a"; AStr "b"]).
Proof.
  split; [reflexivity|].
  apply (consumed_is_the_smaller_count "%s %s %s" [AStr "a"; AStr "b"] 2).
  reflexivity.
Defined.
